(** * ctmap: a constant-time key-value map (map.go), shallow embedding.

    A Go [[]byte] is a [list Z] whose elements are bytes (0 <= b < 256).
    A Go slice header [[][]byte] is a backing array together with a length;
    the capacity is the length of the backing array (every slice of the map
    starts at offset 0 of its backing array).  Entries are created fresh by
    [Add] and only ever changed through their own bytes, so each entry is
    modelled by its byte contents.

    The calls of the program run in a small state and panic monad: the state
    holds the map and a log of the calls made to the two [crypto/subtle]
    primitives, so that the number of primitive operations can be stated. *)

From Stdlib Require Import String ZArith List Bool Lia.
Import ListNotations.

Local Open Scope Z_scope.

(** ** Bytes and lists *)

Definition byte := Z.
Definition is_byte (b : byte) : bool := (0 <=? b) && (b <? 256).
Definition bytes_ok (l : list byte) : bool := forallb is_byte l.

Fixpoint bytes_eqb (x y : list byte) : bool :=
  match x, y with
  | [], [] => true
  | a :: x', b :: y' => Z.eqb a b && bytes_eqb x' y'
  | _, _ => false
  end.

(** [l[i] = x]; out of range it does nothing (the Go code never writes out
    of range: every index is below the slice length). *)
Fixpoint set_nth {A} (i : nat) (x : A) (l : list A) : list A :=
  match l, i with
  | [], _ => []
  | _ :: l', O => x :: l'
  | y :: l', S i' => y :: set_nth i' x l'
  end.

(** ** Go slices of entries *)

Definition entry := list byte.

Record slice := mkSlice { backing : list entry; len : nat }.

Definition cap (s : slice) : nat := length (backing s).

(** The [Map] struct. *)
Record Map := mkMap { m : slice; keySize : nat; valSize : nat }.

(** ** The state and panic monad *)

Inductive prim := CompareOp | CopyOp.

Record world := mkWorld { wmap : Map; trace : list prim }.

Inductive outcome (A : Type) := Ok (a : A) | Panic (msg : String.string).
Arguments Ok {A} a.
Arguments Panic {A} msg.

Definition M (A : Type) : Type := world -> outcome A * world.

Definition ret {A} (a : A) : M A := fun w => (Ok a, w).

Definition bind {A B} (c : M A) (k : A -> M B) : M B :=
  fun w => match c w with
           | (Ok a, w') => k a w'
           | (Panic s, w') => (Panic s, w')
           end.

Definition panic {A} (msg : String.string) : M A := fun w => (Panic msg, w).

Notation "x <- c ;; k" := (bind c (fun x => k))
  (at level 61, c at next level, right associativity).
Notation "c ;; k" := (bind c (fun _ => k))
  (at level 61, right associativity).

Definition get_map : M Map := fun w => (Ok (wmap w), w).

Definition put_slice (s : slice) : M unit :=
  fun w => (Ok tt, mkWorld (mkMap s (keySize (wmap w)) (valSize (wmap w))) (trace w)).

Definition tick (p : prim) : M unit :=
  fun w => (Ok tt, mkWorld (wmap w) (trace w ++ [p])).

(** [m.m[i]] *)
Definition get_entry (i : nat) : M entry :=
  fun w => (Ok (nth i (backing (m (wmap w))) []), w).

(** [m.m[i] = e], i.e. the bytes of the entry at [i] become [e]. *)
Definition put_entry (i : nat) (e : entry) : M unit :=
  mp <- get_map ;;
  put_slice (mkSlice (set_nth i e (backing (m mp))) (len (m mp))).

(** [e[:k]] and [e[k:]]; an entry's capacity is its length. *)
Definition slice_to (e : entry) (k : nat) : M entry :=
  if Nat.leb k (length e) then ret (firstn k e)
  else panic "runtime error: slice bounds out of range".

Definition slice_from (e : entry) (k : nat) : M entry :=
  if Nat.leb k (length e) then ret (skipn k e)
  else panic "runtime error: slice bounds out of range".

(** ** crypto/subtle *)

(** [ConstantTimeByteEq(x, y uint8) int { return int((uint32(x^y) - 1) >> 31) }] *)
Definition ConstantTimeByteEq (x y : byte) : Z :=
  Z.shiftr ((Z.lxor x y - 1) mod 2 ^ 32) 31.

(** The loop [for i := 0; i < len(x); i++ { v |= x[i] ^ y[i] }]. *)
Fixpoint xor_acc (v : byte) (x y : list byte) : byte :=
  match x, y with
  | a :: x', b :: y' => xor_acc (Z.lor v (Z.lxor a b)) x' y'
  | _, _ => v
  end.

Definition ct_compare (x y : list byte) : Z :=
  if negb (Nat.eqb (length x) (length y)) then 0
  else ConstantTimeByteEq (xor_acc 0 x y) 0.

(** The byte loop of [ConstantTimeCopy]:
    [x[i] = x[i]&xmask | y[i]&ymask] with [xmask := byte(v - 1)] and
    [ymask := byte(^(v - 1))]. *)
Definition ct_copy_bytes (v : Z) (x y : list byte) : list byte :=
  let xmask := (v - 1) mod 256 in
  let ymask := (Z.lnot (v - 1)) mod 256 in
  map (fun '(a, b) => Z.lor (Z.land a xmask) (Z.land b ymask)) (combine x y).

(** [subtle.ConstantTimeCompare(x, y)] *)
Definition ConstantTimeCompare (x y : list byte) : M Z :=
  tick CompareOp ;; ret (ct_compare x y).

(** [subtle.ConstantTimeCopy(v, x, y)]: returns the new contents of [x]. *)
Definition ConstantTimeCopy (v : Z) (x y : list byte) : M (list byte) :=
  tick CopyOp ;;
  if negb (Nat.eqb (length x) (length y))
  then panic "subtle: slices have different lengths"
  else ret (ct_copy_bytes v x y).

(** ** Loops *)

(** A counting loop over the indices [i, i + fuel), threading the loop
    variables [acc]. *)
Fixpoint range_from {A} (fuel i : nat) (body : nat -> A -> M A) (acc : A) : M A :=
  match fuel with
  | O => ret acc
  | S fuel' => acc' <- body i acc ;; range_from fuel' (S i) body acc'
  end.

(** [for _, entry := range m.m { ... }] where the body may change the bytes
    of [entry]: [f] gets the loop variables and the entry, and returns the new
    loop variables and the new bytes of the entry. *)
Definition entry_step {A} (f : A -> entry -> M (A * entry)) (i : nat) (acc : A) : M A :=
  e <- get_entry i ;;
  r <- f acc e ;;
  put_entry i (snd r) ;;
  ret (fst r).

Definition range_entries {A} (n : nat) (f : A -> entry -> M (A * entry)) (acc : A) : M A :=
  range_from n 0 (entry_step f) acc.

(** [m.m = m.m[:hi]] *)
Definition reslice (hi : Z) : M unit :=
  mp <- get_map ;;
  if (hi <? 0) || (Z.of_nat (cap (m mp)) <? hi)
  then panic "runtime error: slice bounds out of range"
  else put_slice (mkSlice (backing (m mp)) (Z.to_nat hi)).

(** ** The methods of [Map] *)

Definition New (keySize valSize : nat) : Map :=
  mkMap (mkSlice [] 0) keySize valSize.

(** [make([][]byte, 0, capacity)]: [capacity] nil entries, length 0. *)
Definition NewWithCapacity (keySize valSize capacity : nat) : Map :=
  mkMap (mkSlice (repeat [] capacity) 0) keySize valSize.

Definition Len (mp : Map) : nat := len (m mp).

(** [copy(dst, src)]: the new contents of [dst]. *)
Definition go_copy (dst src : list byte) : list byte :=
  firstn (length dst) src ++ skipn (length src) dst.

Section Runtime.

(** The capacity the Go runtime chooses when [append] outgrows a backing
    array, from the old capacity and the needed length. *)
Variable growcap : nat -> nat -> nat.

(** [append(s, e)] *)
Definition append (s : slice) (e : entry) : slice :=
  if Nat.ltb (len s) (cap s)
  then mkSlice (set_nth (len s) e (backing s)) (S (len s))
  else mkSlice (firstn (len s) (backing s) ++ [e]
                ++ repeat [] (growcap (cap s) (S (len s)) - S (len s)))
               (S (len s)).

Definition Add (key val : list byte) : M unit :=
  mp <- get_map ;;
  if negb (Nat.eqb (length key) (keySize mp)) then panic "key has invalid size" else
  if negb (Nat.eqb (length val) (valSize mp)) then panic "val has invalid size" else
  let entry := repeat 0 (keySize mp + valSize mp) in
  let entry := go_copy (firstn (keySize mp) entry) key
               ++ go_copy (skipn (keySize mp) entry) val in
  put_slice (append (m mp) entry).

End Runtime.

(** The body of the loop of [Set]. *)
Definition Set_body (ks : nat) (key val : list byte) (v : Z) (e : entry) : M (Z * entry) :=
  k <- slice_to e ks ;;
  vv <- ConstantTimeCompare k key ;;
  dst <- slice_from e ks ;;
  dst' <- ConstantTimeCopy vv dst val ;;
  ret (Z.lor v vv, k ++ dst').

Definition Set_ (key val : list byte) : M Z :=
  mp <- get_map ;;
  if negb (Nat.eqb (length key) (keySize mp)) then panic "key has invalid size" else
  if negb (Nat.eqb (length val) (valSize mp)) then panic "val has invalid size" else
  range_entries (len (m mp)) (Set_body (keySize mp) key val) 0.

Definition Replace_body (ks : nat) (oldKey newKey val : list byte) (v : Z) (e : entry)
  : M (Z * entry) :=
  k <- slice_to e ks ;;
  c <- ConstantTimeCompare k oldKey ;;
  let vv := Z.ldiff c v in
  k' <- ConstantTimeCopy vv k newKey ;;
  dst <- slice_from e ks ;;
  dst' <- ConstantTimeCopy vv dst val ;;
  ret (Z.lor v vv, k' ++ dst').

Definition Replace (oldKey newKey val : list byte) : M Z :=
  mp <- get_map ;;
  if negb (Nat.eqb (length oldKey) (keySize mp)) then panic "oldKey has invalid size" else
  if negb (Nat.eqb (length newKey) (keySize mp)) then panic "newKey has invalid size" else
  if negb (Nat.eqb (length val) (valSize mp)) then panic "val has invalid size" else
  range_entries (len (m mp)) (Replace_body (keySize mp) oldKey newKey val) 0.

Definition Rename_body (ks : nat) (oldKey newKey : list byte) (v : Z) (e : entry)
  : M (Z * entry) :=
  k <- slice_to e ks ;;
  c <- ConstantTimeCompare k oldKey ;;
  let vv := Z.ldiff c v in
  k' <- ConstantTimeCopy vv k newKey ;;
  ret (Z.lor v vv, k' ++ skipn ks e).

Definition Rename (oldKey newKey : list byte) : M Z :=
  mp <- get_map ;;
  if negb (Nat.eqb (length oldKey) (keySize mp)) then panic "oldKey has invalid size" else
  if negb (Nat.eqb (length newKey) (keySize mp)) then panic "newKey has invalid size" else
  range_entries (len (m mp)) (Rename_body (keySize mp) oldKey newKey) 0.

(** [Contains] does not change the entry. *)
Definition Contains_body (ks : nat) (key : list byte) (v : Z) (e : entry) : M (Z * entry) :=
  k <- slice_to e ks ;;
  c <- ConstantTimeCompare k key ;;
  ret (Z.lor v c, e).

Definition Contains (key : list byte) : M Z :=
  mp <- get_map ;;
  if negb (Nat.eqb (length key) (keySize mp)) then panic "key has invalid size" else
  range_entries (len (m mp)) (Contains_body (keySize mp) key) 0.

(** The loop variables of [Lookup] are [v] and the contents of the caller's
    buffer [val]; the entry is not changed. *)
Definition Lookup_body (ks : nat) (key : list byte) (acc : Z * list byte) (e : entry)
  : M ((Z * list byte) * entry) :=
  let '(v, val) := acc in
  k <- slice_to e ks ;;
  c <- ConstantTimeCompare k key ;;
  let vv := Z.ldiff c v in
  src <- slice_from e ks ;;
  val' <- ConstantTimeCopy vv val src ;;
  ret ((Z.lor v vv, val'), e).

(** [Lookup(key, val)]: returns the result and the new contents of the
    caller's buffer [val]. *)
Definition Lookup (key val : list byte) : M (Z * list byte) :=
  mp <- get_map ;;
  if negb (Nat.eqb (length key) (keySize mp)) then panic "key has invalid size" else
  if negb (Nat.eqb (length val) (valSize mp)) then panic "val has invalid size" else
  range_entries (len (m mp)) (Lookup_body (keySize mp) key) (0, val).

(** The body of the loop [for i, entry := range m.m[:len(m.m)-1]] of [Delete]. *)
Definition Delete_body (ks : nat) (key : list byte) (i : nat) (v : Z) : M Z :=
  e <- get_entry i ;;
  k <- slice_to e ks ;;
  c <- ConstantTimeCompare k key ;;
  let v := Z.lor v c in
  next <- get_entry (S i) ;;
  e' <- ConstantTimeCopy v e next ;;
  put_entry i e' ;;
  ret v.

Definition Delete (key : list byte) : M Z :=
  mp <- get_map ;;
  if negb (Nat.eqb (length key) (keySize mp)) then panic "key has invalid size" else
  let n := len (m mp) in
  if Nat.eqb n 0 then ret 0 else
  v <- range_from (n - 1) 0 (Delete_body (keySize mp) key) 0 ;;
  last <- get_entry (n - 1) ;;
  k <- slice_to last (keySize mp) ;;
  c <- ConstantTimeCompare k key ;;
  let v := Z.lor v c in
  (* for i := range last { last[i] &= byte(v - 1) } *)
  put_entry (n - 1) (map (fun b => Z.land b ((v - 1) mod 256)) last) ;;
  reslice (Z.of_nat n - v) ;;
  ret v.

(** ** Commands

    One call of a method of [Map], with its arguments, so that statements can
    range over calls.  [Lookup]'s buffer is the caller's buffer before the
    call. *)
Inductive cmd :=
| CAdd (key val : list byte)
| CSet (key val : list byte)
| CReplace (oldKey newKey val : list byte)
| CRename (oldKey newKey : list byte)
| CContains (key : list byte)
| CLookup (key val : list byte)
| CDelete (key : list byte).

Inductive result := RNone | RInt (v : Z) | RLookup (v : Z) (val : list byte).

Definition fmap {A B} (f : A -> B) (c : M A) : M B := x <- c ;; ret (f x).

Definition exec_cmd (growcap : nat -> nat -> nat) (c : cmd) : M result :=
  match c with
  | CAdd key val => fmap (fun _ => RNone) (Add growcap key val)
  | CSet key val => fmap RInt (Set_ key val)
  | CReplace ok nk val => fmap RInt (Replace ok nk val)
  | CRename ok nk => fmap RInt (Rename ok nk)
  | CContains key => fmap RInt (Contains key)
  | CLookup key val => fmap (fun r => RLookup (fst r) (snd r)) (Lookup key val)
  | CDelete key => fmap RInt (Delete key)
  end.

(** Runs calls one after the other; a panic stops the sequence. *)
Fixpoint run_cmds (growcap : nat -> nat -> nat) (cs : list cmd) : M (list result) :=
  match cs with
  | [] => ret []
  | c :: cs' => r <- exec_cmd growcap c ;; rs <- run_cmds growcap cs' ;; ret (r :: rs)
  end.

(** ** Vocabulary of the statements *)

(** The entries stored in the map: the first [len] slots of the backing array. *)
Definition entries (mp : Map) : list entry := firstn (len (m mp)) (backing (m mp)).

(** Invariant I1 together with the slice invariant [len <= cap]: every stored
    entry has [keySize + valSize] bytes. *)
Definition wf_entry (ks vs : nat) (e : entry) : bool :=
  Nat.eqb (length e) (ks + vs) && bytes_ok e.

Definition wf_map (mp : Map) : bool :=
  Nat.leb (len (m mp)) (cap (m mp))
  && forallb (wf_entry (keySize mp) (valSize mp)) (entries mp).

(** The key region of [e] equals [key]. *)
Definition key_matches (ks : nat) (key : list byte) (e : entry) : bool :=
  bytes_eqb (firstn ks e) key.

(** The names of the arguments of a call whose length is wrong, in the
    order of the parameters. *)
Definition bad_args (ks vs : nat) (c : cmd) : list string :=
  let chk (name : string) (l : list byte) (n : nat) : list string := if Nat.eqb (length l) n then [] else [name] in
  match c with
  | CAdd key val | CSet key val | CLookup key val =>
      chk "key"%string key ks ++ chk "val"%string val vs
  | CReplace ok nk val => chk "oldKey"%string ok ks ++ chk "newKey"%string nk ks ++ chk "val"%string val vs
  | CRename ok nk => chk "oldKey"%string ok ks ++ chk "newKey"%string nk ks
  | CContains key | CDelete key => chk "key"%string key ks
  end%list.

Definition cmd_args (c : cmd) : list (list byte) :=
  match c with
  | CAdd a b | CSet a b | CLookup a b | CRename a b => [a; b]
  | CReplace a b d => [a; b; d]
  | CContains a | CDelete a => [a]
  end.

(** A valid call: every argument has its configured size and holds bytes. *)
Definition valid_cmd (ks vs : nat) (c : cmd) : bool :=
  match bad_args ks vs c with [] => forallb bytes_ok (cmd_args c) | _ => false end.

(** ** Pure models of the loops *)

(** [map_accum g acc l]: [g] applied along [l], threading [acc]. *)
Fixpoint map_accum {A} (g : A -> entry -> A * entry) (acc : A) (l : list entry)
  : A * list entry :=
  match l with
  | [] => (acc, [])
  | e :: l' =>
      let (a1, e1) := g acc e in
      let (a2, l2) := map_accum g a1 l' in
      (a2, e1 :: l2)
  end.

Definition set_step (ks : nat) (key val : list byte) (v : Z) (e : entry) : Z * entry :=
  let vv := ct_compare (firstn ks e) key in
  (Z.lor v vv, firstn ks e ++ ct_copy_bytes vv (skipn ks e) val).

Definition replace_step (ks : nat) (oldKey newKey val : list byte) (v : Z) (e : entry)
  : Z * entry :=
  let vv := Z.ldiff (ct_compare (firstn ks e) oldKey) v in
  (Z.lor v vv, ct_copy_bytes vv (firstn ks e) newKey ++ ct_copy_bytes vv (skipn ks e) val).

Definition rename_step (ks : nat) (oldKey newKey : list byte) (v : Z) (e : entry)
  : Z * entry :=
  let vv := Z.ldiff (ct_compare (firstn ks e) oldKey) v in
  (Z.lor v vv, ct_copy_bytes vv (firstn ks e) newKey ++ skipn ks e).

Definition contains_step (ks : nat) (key : list byte) (v : Z) (e : entry) : Z * entry :=
  (Z.lor v (ct_compare (firstn ks e) key), e).

Definition lookup_step (ks : nat) (key : list byte) (acc : Z * list byte) (e : entry)
  : (Z * list byte) * entry :=
  let '(v, val) := acc in
  let vv := Z.ldiff (ct_compare (firstn ks e) key) v in
  ((Z.lor v vv, ct_copy_bytes vv val (skipn ks e)), e).

(** Changes the first element satisfying [p] by [f]. *)
Fixpoint update_first (p : entry -> bool) (f : entry -> entry) (l : list entry) : list entry :=
  match l with
  | [] => []
  | e :: l' => if p e then f e :: l' else e :: update_first p f l'
  end.

(** The loop of [Delete] on the stored entries: each entry but the last is
    overwritten by its successor once a match has been seen. *)
Fixpoint delete_shift (ks : nat) (key : list byte) (v : Z) (l : list entry) : Z * list entry :=
  match l with
  | e :: ((e' :: _) as l') =>
      let v := Z.lor v (ct_compare (firstn ks e) key) in
      let (v2, l2) := delete_shift ks key v l' in
      (v2, ct_copy_bytes v e e' :: l2)
  | _ => (v, l)
  end.

(** Removes the first element satisfying [p]. *)
Fixpoint remove_first (p : entry -> bool) (l : list entry) : list entry :=
  match l with
  | [] => []
  | e :: l' => if p e then l' else e :: remove_first p l'
  end.

(** ** Maps, logs and sequences of calls *)

(** The map whose stored entries are replaced by [es] (same length, same
    backing array beyond them). *)
Definition with_entries (mp : Map) (es : list entry) : Map :=
  mkMap (mkSlice (es ++ skipn (len (m mp)) (backing (m mp))) (len (m mp)))
        (keySize mp) (valSize mp).

(** The primitive calls of [Delete] on [n] entries. *)
Definition delete_trace (n : nat) : list prim :=
  match n with
  | O => []
  | S n' => concat (repeat [CompareOp; CopyOp] n') ++ [CompareOp]
  end.

(** How a call changes the number of entries: [Add] adds one, a [Delete]
    that returned 1 removes one. *)
Definition len_change (c : cmd) (r : result) : Z :=
  match c, r with
  | CAdd _ _, _ => 1
  | CDelete _, RInt v => if Z.eqb v 1 then -1 else 0
  | _, _ => 0
  end.

(** The number of [Add] calls. *)
Fixpoint adds (cs : list cmd) : nat :=
  match cs with
  | [] => O
  | CAdd _ _ :: cs' => S (adds cs')
  | _ :: cs' => adds cs'
  end.

(** The number of [Delete] calls that returned 1, reading each call with its
    result. *)
Fixpoint deletes_ok (cs : list cmd) (rs : list result) : nat :=
  match cs, rs with
  | CDelete _ :: cs', RInt v :: rs' => ((if Z.eqb v 1 then 1 else 0) + deletes_ok cs' rs')%nat
  | _ :: cs', _ :: rs' => deletes_ok cs' rs'
  | _, _ => O
  end.

Definition prim_eqb (p q : prim) : bool :=
  match p, q with
  | CompareOp, CompareOp | CopyOp, CopyOp => true
  | _, _ => false
  end.

(** The number of calls of the primitive [p] in a log. *)
Definition prim_count (p : prim) (t : list prim) : nat := length (filter (prim_eqb p) t).

(** The primitive calls of one call of a method on a map of [n] entries. *)
Definition op_trace (c : cmd) (n : nat) : list prim :=
  match c with
  | CAdd _ _ => []
  | CSet _ _ => concat (repeat [CompareOp; CopyOp] n)
  | CReplace _ _ _ => concat (repeat [CompareOp; CopyOp; CopyOp] n)
  | CRename _ _ => concat (repeat [CompareOp; CopyOp] n)
  | CContains _ => concat (repeat [CompareOp] n)
  | CLookup _ _ => concat (repeat [CompareOp; CopyOp] n)
  | CDelete _ => delete_trace n
  end.

(** The number of [ConstantTimeCompare] calls of one call of a method on a
    map of [n] entries, as the loops of the methods make them. *)
Definition compares_of (c : cmd) (n : nat) : nat :=
  match c with
  | CAdd _ _ => O
  | _ => n
  end.

(** The number of [ConstantTimeCopy] calls of one call of a method on a map
    of [n] entries. *)
Definition copies_of (c : cmd) (n : nat) : nat :=
  match c with
  | CAdd _ _ | CContains _ => O
  | CReplace _ _ _ => (2 * n)%nat
  | CDelete _ => (n - 1)%nat
  | _ => n
  end.

(** ** Example maps *)

(** The map of the example of [Set]: two entries with key [0xA5]. *)
Definition dup_map : Map := mkMap (mkSlice [[165; 90]; [165; 90]] 2) 1 1.

(** Three entries, the first and the last with key [0xA5], and one spare slot. *)
Definition ex_map : Map := mkMap (mkSlice [[165; 90]; [7; 8]; [165; 90]; [0; 0]] 3) 1 1.

Definition ex_map2 : Map := mkMap (mkSlice [[1; 2]; [3; 4]; [5; 6]] 3) 1 1.

(** One entry, no spare capacity. *)
Definition one_map : Map := mkMap (mkSlice [[1]] 1) 1 0.

(** Key size 0. *)
Definition key0_map : Map := mkMap (mkSlice [[1]; [2]] 2) 0 1.

(** A growth policy for [append]: double the capacity. *)
Definition double_cap (c n : nat) : nat := Nat.max n (2 * c).

(** ** Byte lemmas *)

Lemma is_byte_iff (b : Z) : is_byte b = true <-> 0 <= b < 256.
Proof. unfold is_byte. rewrite andb_true_iff, Z.leb_le, Z.ltb_lt. tauto. Qed.

Lemma land_255 (a : Z) : Z.land a 255 = a mod 256.
Proof. change 255 with (Z.ones 8). rewrite Z.land_ones by lia. reflexivity. Qed.

Lemma is_byte_land (b : Z) : is_byte b = true <-> Z.land b 255 = b.
Proof.
  rewrite is_byte_iff, land_255. split.
  - intros. apply Z.mod_small. lia.
  - intros H. rewrite <- H. apply Z.mod_pos_bound. lia.
Qed.

Lemma is_byte_lor (a b : Z) :
  is_byte a = true -> is_byte b = true -> is_byte (Z.lor a b) = true.
Proof.
  rewrite !is_byte_land. intros Ha Hb.
  rewrite Z.land_lor_distr_l, Ha, Hb. reflexivity.
Qed.

Lemma is_byte_lxor (a b : Z) :
  is_byte a = true -> is_byte b = true -> is_byte (Z.lxor a b) = true.
Proof.
  rewrite !is_byte_land. intros Ha Hb.
  rewrite <- Ha at 2. rewrite <- Hb at 2.
  apply Z.bits_inj'. intros n _.
  rewrite Z.land_spec, !Z.lxor_spec, !Z.land_spec.
  destruct (Z.testbit a n), (Z.testbit b n), (Z.testbit 255 n); reflexivity.
Qed.

Lemma xor_acc_byte (v : Z) (x y : list byte) :
  is_byte v = true -> bytes_ok x = true -> bytes_ok y = true ->
  is_byte (xor_acc v x y) = true.
Proof.
  revert v y. induction x as [|a x IH]; intros v [|b y] Hv Hx Hy; simpl in *; auto.
  apply andb_true_iff in Hx as [Ha Hx]. apply andb_true_iff in Hy as [Hb Hy].
  apply IH; auto. apply is_byte_lor; auto. apply is_byte_lxor; auto.
Qed.

Lemma xor_acc_zero (v : Z) (x y : list byte) :
  length x = length y ->
  (xor_acc v x y = 0 <-> v = 0 /\ bytes_eqb x y = true).
Proof.
  revert v y. induction x as [|a x IH]; intros v [|b y] Hl; simpl in *;
    try discriminate; [tauto|].
  rewrite IH by lia. rewrite Z.lor_eq_0_iff, Z.lxor_eq_0_iff, andb_true_iff, Z.eqb_eq.
  tauto.
Qed.

Lemma ByteEq_0 : ConstantTimeByteEq 0 0 = 1.
Proof. reflexivity. Qed.

Lemma ByteEq_pos (v : Z) : 0 < v < 256 -> ConstantTimeByteEq v 0 = 0.
Proof.
  intros H. unfold ConstantTimeByteEq. rewrite Z.lxor_0_r.
  rewrite Z.mod_small by lia. rewrite Z.shiftr_div_pow2 by lia.
  apply Z.div_small. lia.
Qed.

Lemma ct_compare_spec (x y : list byte) :
  length x = length y -> bytes_ok x = true -> bytes_ok y = true ->
  ct_compare x y = if bytes_eqb x y then 1 else 0.
Proof.
  intros Hl Hx Hy. unfold ct_compare. rewrite Hl, Nat.eqb_refl. simpl.
  pose proof (xor_acc_zero 0 x y Hl) as Hz.
  pose proof (xor_acc_byte 0 x y eq_refl Hx Hy) as Hb. apply is_byte_iff in Hb.
  destruct (bytes_eqb x y) eqn:E.
  - assert (xor_acc 0 x y = 0) as -> by (apply Hz; auto). reflexivity.
  - apply ByteEq_pos. assert (xor_acc 0 x y <> 0) by (intros H; apply Hz in H; intuition congruence).
    lia.
Qed.

Lemma ct_copy_1 (x y : list byte) :
  length x = length y -> bytes_ok y = true -> ct_copy_bytes 1 x y = y.
Proof.
  unfold ct_copy_bytes. simpl (1 - 1). change (0 mod 256) with 0.
  change (Z.lnot 0 mod 256) with 255.
  revert y. induction x as [|a x IH]; intros [|b y] Hl Hy; simpl in *; try discriminate; auto.
  apply andb_true_iff in Hy as [Hb Hy]. apply is_byte_land in Hb.
  rewrite Z.land_0_r, Z.lor_0_l, Hb, IH; auto.
Qed.

Lemma ct_copy_0 (x y : list byte) :
  length x = length y -> bytes_ok x = true -> ct_copy_bytes 0 x y = x.
Proof.
  unfold ct_copy_bytes. simpl (0 - 1). change (-1 mod 256) with 255.
  change (Z.lnot (-1) mod 256) with 0.
  revert y. induction x as [|a x IH]; intros [|b y] Hl Hx; simpl in *; try discriminate; auto.
  apply andb_true_iff in Hx as [Ha Hx]. apply is_byte_land in Ha.
  rewrite Z.land_0_r, Z.lor_0_r, Ha, IH; auto.
Qed.

Lemma ct_copy_length (v : Z) (x y : list byte) :
  length x = length y -> length (ct_copy_bytes v x y) = length x.
Proof. intros H. unfold ct_copy_bytes. rewrite length_map, length_combine. lia. Qed.

(** ** List lemmas *)

Lemma nth_app_len {A} (pre rest : list A) (e d : A) :
  nth (length pre) (pre ++ e :: rest) d = e.
Proof. induction pre; simpl; auto. Qed.

Lemma set_nth_app_len {A} (pre rest : list A) (e x : A) :
  set_nth (length pre) x (pre ++ e :: rest) = pre ++ x :: rest.
Proof. induction pre; simpl; f_equal; auto. Qed.

Lemma length_set_nth {A} (i : nat) (x : A) (l : list A) :
  length (set_nth i x l) = length l.
Proof. revert i; induction l; intros [|i]; simpl; auto. Qed.

(** ** The range loop over entries, for a body that only reads the entry it
    is given and logs a fixed list of primitive calls. *)
Section Loop.

Context {A : Type} (f : A -> entry -> M (A * entry)) (g : A -> entry -> A * entry).
Context (evs : list prim) (P : entry -> bool) (Q : A -> bool).
Hypothesis f_pure : forall acc e w, Q acc = true ->
  P e = true -> f acc e w = (Ok (g acc e), mkWorld (wmap w) (trace w ++ evs)).
Hypothesis g_inv : forall acc e, Q acc = true -> P e = true -> Q (fst (g acc e)) = true.

Lemma range_from_pure (fuel : nat) : forall pre rest acc n ks vs tr,
  Q acc = true -> (fuel <= length rest)%nat -> forallb P (firstn fuel rest) = true ->
  range_from fuel (length pre) (entry_step f) acc
    (mkWorld (mkMap (mkSlice (pre ++ rest) n) ks vs) tr)
  = (Ok (fst (map_accum g acc (firstn fuel rest))),
     mkWorld (mkMap (mkSlice (pre ++ snd (map_accum g acc (firstn fuel rest))
                                  ++ skipn fuel rest) n) ks vs)
             (tr ++ concat (repeat evs fuel))).
Proof.
  induction fuel as [|fuel IH]; intros pre rest acc n ks vs tr HQ Hl HP.
  - simpl. rewrite app_nil_r. reflexivity.
  - destruct rest as [|e rest]; simpl in Hl; [lia|].
    simpl in HP. apply andb_true_iff in HP as [He HP].
    cbn [range_from]. unfold bind at 1, entry_step, bind at 1, get_entry.
    cbn [wmap m backing]. rewrite nth_app_len.
    unfold bind at 1. rewrite (f_pure acc e _ HQ He). cbn [wmap trace].
    pose proof (g_inv acc e HQ He) as HQ1.
    destruct (g acc e) as [a1 e1] eqn:Eg. simpl in HQ1.
    unfold put_entry, bind, get_map, put_slice, ret. cbn.
    rewrite set_nth_app_len.
    replace (S (length pre)) with (length (pre ++ [e1])) by (rewrite length_app; simpl; lia).
    replace (pre ++ e1 :: rest) with ((pre ++ [e1]) ++ rest) by (rewrite <- app_assoc; reflexivity).
    rewrite IH by (auto; lia).
    simpl. rewrite Eg. destruct (map_accum g a1 (firstn fuel rest)) as [a2 l2].
    simpl. rewrite <- !app_assoc. reflexivity.
Qed.

Lemma range_entries_pure (n : nat) (acc : A) (w : world) : Q acc = true ->
  (n <= cap (m (wmap w)))%nat -> forallb P (firstn n (backing (m (wmap w)))) = true ->
  range_entries n f acc w
  = (Ok (fst (map_accum g acc (firstn n (backing (m (wmap w)))))),
     mkWorld (mkMap (mkSlice (snd (map_accum g acc (firstn n (backing (m (wmap w)))))
                              ++ skipn n (backing (m (wmap w))))
                             (len (m (wmap w))))
                    (keySize (wmap w)) (valSize (wmap w)))
             (trace w ++ concat (repeat evs n))).
Proof.
  destruct w as [[[b l] ks vs] tr]. unfold cap. cbn. intros HQ Hn HP.
  apply (range_from_pure n [] b acc l ks vs tr HQ Hn HP).
Qed.

End Loop.

Lemma wf_entry_lengths (ks vs : nat) (e : entry) :
  wf_entry ks vs e = true ->
  length e = (ks + vs)%nat /\ length (firstn ks e) = ks /\ length (skipn ks e) = vs
  /\ Nat.leb ks (length e) = true.
Proof.
  unfold wf_entry. rewrite andb_true_iff, Nat.eqb_eq. intros [H _].
  rewrite length_firstn, length_skipn, H. repeat split; try lia.
  apply Nat.leb_le. lia.
Qed.

Ltac step_tac :=
  intros;
  repeat match goal with w : world |- _ => destruct w end;
  match goal with
  | H : wf_entry _ _ ?e = true |- _ =>
      let Hl := fresh in let Hf := fresh in let Hs := fresh in let Hle := fresh in
      destruct (wf_entry_lengths _ _ e H) as (Hl & Hf & Hs & Hle);
      unfold slice_to, slice_from, ConstantTimeCompare, ConstantTimeCopy, tick, bind, ret;
      cbn [wmap trace]; rewrite ?Hle;
      repeat match goal with H' : length _ = _ |- _ => rewrite H' end;
      rewrite ?Nat.eqb_refl; cbn; rewrite <- ?app_assoc; reflexivity
  end.

Lemma Set_body_pure (ks vs : nat) (key val : list byte) (v : Z) (e : entry) (w : world) :
  length val = vs -> wf_entry ks vs e = true ->
  Set_body ks key val v e w
  = (Ok (set_step ks key val v e), mkWorld (wmap w) (trace w ++ [CompareOp; CopyOp])).
Proof. unfold Set_body. step_tac. Qed.

Lemma Replace_body_pure (ks vs : nat) (oldKey newKey val : list byte) (v : Z) (e : entry)
  (w : world) :
  length newKey = ks -> length val = vs -> wf_entry ks vs e = true ->
  Replace_body ks oldKey newKey val v e w
  = (Ok (replace_step ks oldKey newKey val v e),
     mkWorld (wmap w) (trace w ++ [CompareOp; CopyOp; CopyOp])).
Proof. unfold Replace_body. step_tac. Qed.

Lemma Rename_body_pure (ks vs : nat) (oldKey newKey : list byte) (v : Z) (e : entry)
  (w : world) :
  length newKey = ks -> wf_entry ks vs e = true ->
  Rename_body ks oldKey newKey v e w
  = (Ok (rename_step ks oldKey newKey v e),
     mkWorld (wmap w) (trace w ++ [CompareOp; CopyOp])).
Proof. unfold Rename_body. step_tac. Qed.

Lemma Contains_body_pure (ks vs : nat) (key : list byte) (v : Z) (e : entry) (w : world) :
  wf_entry ks vs e = true ->
  Contains_body ks key v e w
  = (Ok (contains_step ks key v e), mkWorld (wmap w) (trace w ++ [CompareOp])).
Proof. unfold Contains_body. step_tac. Qed.

Lemma Lookup_body_pure (ks vs : nat) (key : list byte) (acc : Z * list byte) (e : entry)
  (w : world) :
  length (snd acc) = vs -> wf_entry ks vs e = true ->
  Lookup_body ks key acc e w
  = (Ok (lookup_step ks key acc e), mkWorld (wmap w) (trace w ++ [CompareOp; CopyOp])).
Proof. destruct acc as [v val]. unfold Lookup_body. simpl. step_tac. Qed.

(** ** Pure behaviour of the loops *)

Lemma forallb_firstn {A} (p : A -> bool) (k : nat) (l : list A) :
  forallb p l = true -> forallb p (firstn k l) = true.
Proof.
  revert k; induction l as [|a l IH]; intros [|k] H; simpl in *; auto.
  apply andb_true_iff in H as [H1 H2]. rewrite H1, IH; auto.
Qed.

Lemma forallb_skipn {A} (p : A -> bool) (k : nat) (l : list A) :
  forallb p l = true -> forallb p (skipn k l) = true.
Proof.
  revert k; induction l as [|a l IH]; intros [|k] H; simpl in *; auto.
  apply andb_true_iff in H as [H1 H2]. auto.
Qed.

Lemma bytes_ok_firstn (k : nat) (l : list byte) :
  bytes_ok l = true -> bytes_ok (firstn k l) = true.
Proof. apply forallb_firstn. Qed.

Lemma bytes_ok_skipn (k : nat) (l : list byte) :
  bytes_ok l = true -> bytes_ok (skipn k l) = true.
Proof. apply forallb_skipn. Qed.

Lemma bytes_eqb_eq (x y : list byte) : bytes_eqb x y = true <-> x = y.
Proof.
  revert y; induction x as [|a x IH]; intros [|b y]; simpl; try (split; congruence).
  rewrite andb_true_iff, Z.eqb_eq, IH. split; [intros [-> ->]; auto | intros H; inversion H; auto].
Qed.

Lemma cmp_wf (ks vs : nat) (key : list byte) (e : entry) :
  wf_entry ks vs e = true -> length key = ks -> bytes_ok key = true ->
  ct_compare (firstn ks e) key = Z.b2z (key_matches ks key e).
Proof.
  intros He Hk Hb. destruct (wf_entry_lengths _ _ _ He) as (_ & Hf & _ & _).
  unfold wf_entry in He. apply andb_true_iff in He as [_ He].
  rewrite ct_compare_spec; try congruence.
  - unfold key_matches. destruct bytes_eqb; reflexivity.
  - apply forallb_firstn; auto.
Qed.

Lemma wf_entry_bytes (ks vs : nat) (e : entry) :
  wf_entry ks vs e = true -> bytes_ok e = true.
Proof. unfold wf_entry. rewrite andb_true_iff. tauto. Qed.

Lemma firstn_skipn_key (ks vs : nat) (key : list byte) (e : entry) :
  key_matches ks key e = true -> firstn ks e = key.
Proof. unfold key_matches. apply bytes_eqb_eq. Qed.

Lemma lor_b2z (v : Z) (a r : bool) :
  Z.lor (Z.lor v (Z.b2z a)) (Z.b2z r) = Z.lor v (Z.b2z (a || r)).
Proof. rewrite <- Z.lor_assoc. destruct a, r; reflexivity. Qed.

Section Pure.

Variables (ks vs : nat).

Lemma set_loop (key val : list byte) (l : list entry) : forall v,
  length key = ks -> bytes_ok key = true -> length val = vs -> bytes_ok val = true ->
  forallb (wf_entry ks vs) l = true ->
  map_accum (set_step ks key val) v l
  = (Z.lor v (Z.b2z (existsb (key_matches ks key) l)),
     map (fun e => if key_matches ks key e then firstn ks e ++ val else e) l).
Proof.
  induction l as [|e l IH]; intros v Hk Hkb Hv Hvb Hl; simpl in *.
  - rewrite Z.lor_0_r. reflexivity.
  - apply andb_true_iff in Hl as [He Hl].
    destruct (wf_entry_lengths _ _ _ He) as (_ & _ & Hs & _).
    unfold set_step. rewrite (cmp_wf ks vs) by auto.
    rewrite IH by auto. rewrite lor_b2z.
    destruct (key_matches ks key e).
    + rewrite ct_copy_1 by congruence. reflexivity.
    + rewrite ct_copy_0 by (try congruence; apply forallb_skipn; eapply wf_entry_bytes; eauto).
      rewrite firstn_skipn. reflexivity.
Qed.

Lemma contains_loop (key : list byte) (l : list entry) : forall v,
  length key = ks -> bytes_ok key = true -> forallb (wf_entry ks vs) l = true ->
  map_accum (contains_step ks key) v l
  = (Z.lor v (Z.b2z (existsb (key_matches ks key) l)), l).
Proof.
  induction l as [|e l IH]; intros v Hk Hkb Hl; simpl in *.
  - rewrite Z.lor_0_r. reflexivity.
  - apply andb_true_iff in Hl as [He Hl].
    unfold contains_step. rewrite (cmp_wf ks vs) by auto.
    rewrite IH by auto. rewrite lor_b2z. reflexivity.
Qed.

Lemma ldiff_b2z_1 (b : bool) : Z.ldiff (Z.b2z b) 1 = 0.
Proof. destruct b; reflexivity. Qed.

Lemma replace_step_1 (oldKey newKey val : list byte) (e : entry) :
  length oldKey = ks -> bytes_ok oldKey = true -> length newKey = ks -> length val = vs ->
  wf_entry ks vs e = true ->
  replace_step ks oldKey newKey val 1 e = (1, e).
Proof.
  intros Hk Hkb Hn Hv He.
  destruct (wf_entry_lengths _ _ _ He) as (_ & Hf & Hs & _).
  pose proof (wf_entry_bytes _ _ _ He) as Hb.
  unfold replace_step. rewrite (cmp_wf ks vs), ldiff_b2z_1 by auto.
  rewrite !ct_copy_0 by (try congruence; auto using bytes_ok_firstn, bytes_ok_skipn).
  rewrite firstn_skipn. reflexivity.
Qed.

Lemma replace_step_0 (oldKey newKey val : list byte) (e : entry) :
  length oldKey = ks -> bytes_ok oldKey = true -> length newKey = ks ->
  bytes_ok newKey = true -> length val = vs -> bytes_ok val = true ->
  wf_entry ks vs e = true ->
  replace_step ks oldKey newKey val 0 e
  = if key_matches ks oldKey e then (1, newKey ++ val) else (0, e).
Proof.
  intros Hk Hkb Hn Hnb Hv Hvb He.
  destruct (wf_entry_lengths _ _ _ He) as (_ & Hf & Hs & _).
  pose proof (wf_entry_bytes _ _ _ He) as Hb.
  unfold replace_step. rewrite (cmp_wf ks vs) by auto.
  destruct (key_matches ks oldKey e); cbn [Z.b2z Z.ldiff Z.lor].
  - rewrite !ct_copy_1 by congruence. reflexivity.
  - rewrite !ct_copy_0 by (try congruence; auto using bytes_ok_firstn, bytes_ok_skipn).
    rewrite firstn_skipn. reflexivity.
Qed.

Lemma replace_loop_done (oldKey newKey val : list byte) (l : list entry) :
  length oldKey = ks -> bytes_ok oldKey = true -> length newKey = ks -> length val = vs ->
  forallb (wf_entry ks vs) l = true ->
  map_accum (replace_step ks oldKey newKey val) 1 l = (1, l).
Proof.
  induction l as [|e l IH]; intros Hk Hkb Hn Hv Hl; cbn [map_accum forallb] in *; auto.
  apply andb_true_iff in Hl as [He Hl].
  rewrite replace_step_1, IH by auto. reflexivity.
Qed.

Lemma replace_loop (oldKey newKey val : list byte) (l : list entry) :
  length oldKey = ks -> bytes_ok oldKey = true -> length newKey = ks ->
  bytes_ok newKey = true -> length val = vs -> bytes_ok val = true ->
  forallb (wf_entry ks vs) l = true ->
  map_accum (replace_step ks oldKey newKey val) 0 l
  = (Z.b2z (existsb (key_matches ks oldKey) l),
     update_first (key_matches ks oldKey) (fun _ => newKey ++ val) l).
Proof.
  induction l as [|e l IH]; intros Hk Hkb Hn Hnb Hv Hvb Hl;
    cbn [map_accum forallb existsb update_first] in *; auto.
  apply andb_true_iff in Hl as [He Hl].
  rewrite replace_step_0 by auto.
  destruct (key_matches ks oldKey e).
  - rewrite replace_loop_done by auto. reflexivity.
  - rewrite IH by auto. reflexivity.
Qed.

Lemma rename_step_1 (oldKey newKey : list byte) (e : entry) :
  length oldKey = ks -> bytes_ok oldKey = true -> length newKey = ks ->
  wf_entry ks vs e = true ->
  rename_step ks oldKey newKey 1 e = (1, e).
Proof.
  intros Hk Hkb Hn He.
  destruct (wf_entry_lengths _ _ _ He) as (_ & Hf & Hs & _).
  pose proof (wf_entry_bytes _ _ _ He) as Hb.
  unfold rename_step. rewrite (cmp_wf ks vs), ldiff_b2z_1 by auto.
  rewrite ct_copy_0 by (try congruence; auto using bytes_ok_firstn).
  rewrite firstn_skipn. reflexivity.
Qed.

Lemma rename_step_0 (oldKey newKey : list byte) (e : entry) :
  length oldKey = ks -> bytes_ok oldKey = true -> length newKey = ks ->
  bytes_ok newKey = true -> wf_entry ks vs e = true ->
  rename_step ks oldKey newKey 0 e
  = if key_matches ks oldKey e then (1, newKey ++ skipn ks e) else (0, e).
Proof.
  intros Hk Hkb Hn Hnb He.
  destruct (wf_entry_lengths _ _ _ He) as (_ & Hf & Hs & _).
  pose proof (wf_entry_bytes _ _ _ He) as Hb.
  unfold rename_step. rewrite (cmp_wf ks vs) by auto.
  destruct (key_matches ks oldKey e); cbn [Z.b2z Z.ldiff Z.lor].
  - rewrite ct_copy_1 by congruence. reflexivity.
  - rewrite ct_copy_0 by (try congruence; auto using bytes_ok_firstn).
    rewrite firstn_skipn. reflexivity.
Qed.

Lemma rename_loop_done (oldKey newKey : list byte) (l : list entry) :
  length oldKey = ks -> bytes_ok oldKey = true -> length newKey = ks ->
  forallb (wf_entry ks vs) l = true ->
  map_accum (rename_step ks oldKey newKey) 1 l = (1, l).
Proof.
  induction l as [|e l IH]; intros Hk Hkb Hn Hl; cbn [map_accum forallb] in *; auto.
  apply andb_true_iff in Hl as [He Hl].
  rewrite rename_step_1, IH by auto. reflexivity.
Qed.

Lemma rename_loop (oldKey newKey : list byte) (l : list entry) :
  length oldKey = ks -> bytes_ok oldKey = true -> length newKey = ks ->
  bytes_ok newKey = true -> forallb (wf_entry ks vs) l = true ->
  map_accum (rename_step ks oldKey newKey) 0 l
  = (Z.b2z (existsb (key_matches ks oldKey) l),
     update_first (key_matches ks oldKey) (fun e => newKey ++ skipn ks e) l).
Proof.
  induction l as [|e l IH]; intros Hk Hkb Hn Hnb Hl;
    cbn [map_accum forallb existsb update_first] in *; auto.
  apply andb_true_iff in Hl as [He Hl].
  rewrite rename_step_0 by auto.
  destruct (key_matches ks oldKey e).
  - rewrite rename_loop_done by auto. reflexivity.
  - rewrite IH by auto. reflexivity.
Qed.

Lemma lookup_step_1 (key val : list byte) (e : entry) :
  length key = ks -> bytes_ok key = true -> length val = vs -> bytes_ok val = true ->
  wf_entry ks vs e = true ->
  lookup_step ks key (1, val) e = ((1, val), e).
Proof.
  intros Hk Hkb Hv Hvb He.
  destruct (wf_entry_lengths _ _ _ He) as (_ & Hf & Hs & _).
  unfold lookup_step. rewrite (cmp_wf ks vs), ldiff_b2z_1 by auto.
  rewrite ct_copy_0 by (try congruence; auto). reflexivity.
Qed.

Lemma lookup_step_0 (key val : list byte) (e : entry) :
  length key = ks -> bytes_ok key = true -> length val = vs -> bytes_ok val = true ->
  wf_entry ks vs e = true ->
  lookup_step ks key (0, val) e
  = if key_matches ks key e then ((1, skipn ks e), e) else ((0, val), e).
Proof.
  intros Hk Hkb Hv Hvb He.
  destruct (wf_entry_lengths _ _ _ He) as (_ & Hf & Hs & _).
  pose proof (wf_entry_bytes _ _ _ He) as Hb.
  unfold lookup_step. rewrite (cmp_wf ks vs) by auto.
  destruct (key_matches ks key e); cbn [Z.b2z Z.ldiff Z.lor].
  - rewrite ct_copy_1 by (try congruence; auto using bytes_ok_skipn). reflexivity.
  - rewrite ct_copy_0 by (try congruence; auto). reflexivity.
Qed.

Lemma lookup_loop_done (key val : list byte) (l : list entry) :
  length key = ks -> bytes_ok key = true -> length val = vs -> bytes_ok val = true ->
  forallb (wf_entry ks vs) l = true ->
  map_accum (lookup_step ks key) (1, val) l = ((1, val), l).
Proof.
  induction l as [|e l IH]; intros Hk Hkb Hv Hvb Hl; cbn [map_accum forallb] in *; auto.
  apply andb_true_iff in Hl as [He Hl].
  rewrite lookup_step_1, IH by auto. reflexivity.
Qed.

Lemma lookup_loop (key val : list byte) (l : list entry) :
  length key = ks -> bytes_ok key = true -> length val = vs -> bytes_ok val = true ->
  forallb (wf_entry ks vs) l = true ->
  map_accum (lookup_step ks key) (0, val) l
  = (match find (key_matches ks key) l with
     | Some e => (1, skipn ks e)
     | None => (0, val)
     end, l).
Proof.
  induction l as [|e l IH]; intros Hk Hkb Hv Hvb Hl;
    cbn [map_accum forallb find] in *; auto.
  apply andb_true_iff in Hl as [He Hl].
  destruct (wf_entry_lengths _ _ _ He) as (_ & Hf & Hs & _).
  pose proof (wf_entry_bytes _ _ _ He) as Hb.
  rewrite lookup_step_0 by auto.
  destruct (key_matches ks key e).
  - rewrite lookup_loop_done by auto using bytes_ok_skipn. reflexivity.
  - rewrite IH by auto. reflexivity.
Qed.

End Pure.

(** ** The methods on a well-formed map *)

Lemma wf_map_split (mp : Map) :
  wf_map mp = true ->
  (len (m mp) <= cap (m mp))%nat /\ forallb (wf_entry (keySize mp) (valSize mp)) (entries mp) = true.
Proof. unfold wf_map. rewrite andb_true_iff, Nat.leb_le. tauto. Qed.

Lemma length_entries (mp : Map) :
  (len (m mp) <= cap (m mp))%nat -> length (entries mp) = len (m mp).
Proof. unfold entries, cap. intros. rewrite length_firstn. lia. Qed.

Lemma entries_with_entries (mp : Map) (es : list entry) :
  length es = len (m mp) -> entries (with_entries mp es) = es.
Proof.
  intros H. unfold entries, with_entries. cbn [m backing len].
  rewrite <- H, firstn_app, Nat.sub_diag, firstn_O, app_nil_r, firstn_all. reflexivity.
Qed.

Lemma Set_run (mp : Map) (tr : list prim) (key val : list byte) :
  wf_map mp = true -> length key = keySize mp -> bytes_ok key = true ->
  length val = valSize mp -> bytes_ok val = true ->
  Set_ key val (mkWorld mp tr)
  = (Ok (Z.b2z (existsb (key_matches (keySize mp) key) (entries mp))),
     mkWorld (with_entries mp
                (map (fun e => if key_matches (keySize mp) key e
                               then firstn (keySize mp) e ++ val else e) (entries mp)))
             (tr ++ concat (repeat [CompareOp; CopyOp] (len (m mp))))).
Proof.
  intros Hwf Hk Hkb Hv Hvb. destruct (wf_map_split mp Hwf) as [Hle Hall].
  unfold Set_, bind at 1, get_map. cbn [wmap]. rewrite Hk, Hv, !Nat.eqb_refl. cbn [negb].
  rewrite (range_entries_pure _ (set_step (keySize mp) key val) [CompareOp; CopyOp]
             (wf_entry (keySize mp) (valSize mp)) (fun _ => true)); auto.
  - cbn [wmap trace]. fold (entries mp). rewrite (set_loop (keySize mp) (valSize mp)) by auto.
    destruct mp as [[b n] ks vs]. reflexivity.
  - intros. apply (Set_body_pure _ (valSize mp)); auto.
Qed.

Lemma Replace_run (mp : Map) (tr : list prim) (oldKey newKey val : list byte) :
  wf_map mp = true -> length oldKey = keySize mp -> bytes_ok oldKey = true ->
  length newKey = keySize mp -> bytes_ok newKey = true ->
  length val = valSize mp -> bytes_ok val = true ->
  Replace oldKey newKey val (mkWorld mp tr)
  = (Ok (Z.b2z (existsb (key_matches (keySize mp) oldKey) (entries mp))),
     mkWorld (with_entries mp
                (update_first (key_matches (keySize mp) oldKey) (fun _ => newKey ++ val)
                   (entries mp)))
             (tr ++ concat (repeat [CompareOp; CopyOp; CopyOp] (len (m mp))))).
Proof.
  intros Hwf Hk Hkb Hn Hnb Hv Hvb. destruct (wf_map_split mp Hwf) as [Hle Hall].
  unfold Replace, bind at 1, get_map. cbn [wmap]. rewrite Hk, Hn, Hv, !Nat.eqb_refl. cbn [negb].
  rewrite (range_entries_pure _ (replace_step (keySize mp) oldKey newKey val)
             [CompareOp; CopyOp; CopyOp]
             (wf_entry (keySize mp) (valSize mp)) (fun _ => true)); auto.
  - cbn [wmap trace]. fold (entries mp). rewrite (replace_loop (keySize mp) (valSize mp)) by auto.
    destruct mp as [[b n] ks vs]. reflexivity.
  - intros. apply (Replace_body_pure _ (valSize mp)); auto.
Qed.

Lemma Rename_run (mp : Map) (tr : list prim) (oldKey newKey : list byte) :
  wf_map mp = true -> length oldKey = keySize mp -> bytes_ok oldKey = true ->
  length newKey = keySize mp -> bytes_ok newKey = true ->
  Rename oldKey newKey (mkWorld mp tr)
  = (Ok (Z.b2z (existsb (key_matches (keySize mp) oldKey) (entries mp))),
     mkWorld (with_entries mp
                (update_first (key_matches (keySize mp) oldKey)
                   (fun e => newKey ++ skipn (keySize mp) e) (entries mp)))
             (tr ++ concat (repeat [CompareOp; CopyOp] (len (m mp))))).
Proof.
  intros Hwf Hk Hkb Hn Hnb. destruct (wf_map_split mp Hwf) as [Hle Hall].
  unfold Rename, bind at 1, get_map. cbn [wmap]. rewrite Hk, Hn, !Nat.eqb_refl. cbn [negb].
  rewrite (range_entries_pure _ (rename_step (keySize mp) oldKey newKey)
             [CompareOp; CopyOp]
             (wf_entry (keySize mp) (valSize mp)) (fun _ => true)); auto.
  - cbn [wmap trace]. fold (entries mp). rewrite (rename_loop (keySize mp) (valSize mp)) by auto.
    destruct mp as [[b n] ks vs]. reflexivity.
  - intros. apply (Rename_body_pure _ (valSize mp)); auto.
Qed.

Lemma Contains_run (mp : Map) (tr : list prim) (key : list byte) :
  wf_map mp = true -> length key = keySize mp -> bytes_ok key = true ->
  Contains key (mkWorld mp tr)
  = (Ok (Z.b2z (existsb (key_matches (keySize mp) key) (entries mp))),
     mkWorld mp (tr ++ concat (repeat [CompareOp] (len (m mp))))).
Proof.
  intros Hwf Hk Hkb. destruct (wf_map_split mp Hwf) as [Hle Hall].
  unfold Contains, bind at 1, get_map. cbn [wmap]. rewrite Hk, !Nat.eqb_refl. cbn [negb].
  rewrite (range_entries_pure _ (contains_step (keySize mp) key) [CompareOp]
             (wf_entry (keySize mp) (valSize mp)) (fun _ => true)); auto.
  - cbn [wmap trace]. fold (entries mp). rewrite (contains_loop (keySize mp) (valSize mp)) by auto.
    cbn [fst snd]. rewrite Z.lor_0_l.
    destruct mp as [[b n] ks vs]. cbn. rewrite firstn_skipn. reflexivity.
  - intros. apply (Contains_body_pure _ (valSize mp)); auto.
Qed.

Lemma Lookup_run (mp : Map) (tr : list prim) (key val : list byte) :
  wf_map mp = true -> length key = keySize mp -> bytes_ok key = true ->
  length val = valSize mp -> bytes_ok val = true ->
  Lookup key val (mkWorld mp tr)
  = (Ok (match find (key_matches (keySize mp) key) (entries mp) with
         | Some e => (1, skipn (keySize mp) e)
         | None => (0, val)
         end),
     mkWorld mp (tr ++ concat (repeat [CompareOp; CopyOp] (len (m mp))))).
Proof.
  intros Hwf Hk Hkb Hv Hvb. destruct (wf_map_split mp Hwf) as [Hle Hall].
  unfold Lookup, bind at 1, get_map. cbn [wmap]. rewrite Hk, Hv, !Nat.eqb_refl. cbn [negb].
  rewrite (range_entries_pure _ (lookup_step (keySize mp) key) [CompareOp; CopyOp]
             (wf_entry (keySize mp) (valSize mp))
             (fun acc => Nat.eqb (length (snd acc)) (valSize mp))); auto.
  - cbn [wmap trace]. fold (entries mp). rewrite (lookup_loop (keySize mp) (valSize mp)) by auto.
    cbn [fst snd].
    destruct mp as [[b n] ks vs]. cbn. rewrite firstn_skipn. reflexivity.
  - intros acc e w HQ He. apply Nat.eqb_eq in HQ.
    apply (Lookup_body_pure _ (valSize mp)); auto.
  - intros [v0 val0] e HQ He. apply Nat.eqb_eq in HQ. cbn [snd] in HQ.
    destruct (wf_entry_lengths _ _ _ He) as (_ & _ & Hs & _).
    unfold lookup_step. cbn [fst snd]. apply Nat.eqb_eq.
    rewrite ct_copy_length; congruence.
  - cbn [snd]. apply Nat.eqb_eq. auto.
Qed.

(** ** Delete *)

Lemma delete_shift_cons2 (ks : nat) (key : list byte) (v : Z) (e e' : entry) (l : list entry) :
  delete_shift ks key v (e :: e' :: l)
  = let v := Z.lor v (ct_compare (firstn ks e) key) in
    let (v2, l2) := delete_shift ks key v (e' :: l) in
    (v2, ct_copy_bytes v e e' :: l2).
Proof. reflexivity. Qed.

Lemma nth_app_len_S {A} (pre rest : list A) (e e' d : A) :
  nth (S (length pre)) (pre ++ e :: e' :: rest) d = e'.
Proof. induction pre; simpl; auto. Qed.

Lemma Delete_body_step (ks vs : nat) (key : list byte) (pre rest : list entry)
  (e e' : entry) (v : Z) (n : nat) (tr : list prim) :
  wf_entry ks vs e = true -> wf_entry ks vs e' = true ->
  Delete_body ks key (length pre) v
    (mkWorld (mkMap (mkSlice (pre ++ e :: e' :: rest) n) ks vs) tr)
  = (Ok (Z.lor v (ct_compare (firstn ks e) key)),
     mkWorld (mkMap (mkSlice (pre ++ ct_copy_bytes (Z.lor v (ct_compare (firstn ks e) key)) e e'
                                  :: e' :: rest) n) ks vs)
             (tr ++ [CompareOp; CopyOp])).
Proof.
  intros He He'.
  destruct (wf_entry_lengths _ _ _ He) as (Hle & _ & _ & Hleb).
  destruct (wf_entry_lengths _ _ _ He') as (Hle' & _ & _ & _).
  cbv [Delete_body bind get_entry slice_to ConstantTimeCompare ConstantTimeCopy tick ret
       put_entry get_map put_slice].
  cbn [wmap m backing len keySize valSize trace].
  rewrite nth_app_len, Hleb. cbn [wmap m backing len keySize valSize trace negb].
  rewrite nth_app_len_S, Hle, Hle', Nat.eqb_refl.
  cbn [wmap m backing len keySize valSize trace negb].
  rewrite set_nth_app_len, <- app_assoc. reflexivity.
Qed.

Lemma delete_loop (ks vs : nat) (key : list byte) (fuel : nat) :
  length key = ks -> bytes_ok key = true ->
  forall pre rest v n tr,
  (S fuel <= length rest)%nat -> forallb (wf_entry ks vs) (firstn (S fuel) rest) = true ->
  range_from fuel (length pre) (Delete_body ks key) v
    (mkWorld (mkMap (mkSlice (pre ++ rest) n) ks vs) tr)
  = (Ok (fst (delete_shift ks key v (firstn (S fuel) rest))),
     mkWorld (mkMap (mkSlice (pre ++ snd (delete_shift ks key v (firstn (S fuel) rest))
                                  ++ skipn (S fuel) rest) n) ks vs)
             (tr ++ concat (repeat [CompareOp; CopyOp] fuel))).
Proof.
  intros Hk Hkb. induction fuel as [|fuel IH]; intros pre rest v n tr Hl Hwf.
  - destruct rest as [|e rest]; simpl in Hl; [lia|].
    simpl. rewrite app_nil_r. reflexivity.
  - destruct rest as [|e [|e' rest]]; simpl in Hl; try lia.
    cbn [firstn forallb] in Hwf.
    apply andb_true_iff in Hwf as [He Hwf].
    pose proof Hwf as Hwf'. apply andb_true_iff in Hwf' as [He' _].
    destruct (wf_entry_lengths _ _ _ He) as (Hle & Hf & Hs & Hleb).
    destruct (wf_entry_lengths _ _ _ He') as (Hle' & _ & _ & _).
    cbn [range_from]. unfold bind at 1.
    rewrite (Delete_body_step ks vs) by auto.
    replace (S (length pre)) with (length (pre ++ [ct_copy_bytes (Z.lor v (ct_compare (firstn ks e) key)) e e']))
      by (rewrite length_app; simpl; lia).
    replace (pre ++ ct_copy_bytes (Z.lor v (ct_compare (firstn ks e) key)) e e' :: e' :: rest)
      with ((pre ++ [ct_copy_bytes (Z.lor v (ct_compare (firstn ks e) key)) e e']) ++ e' :: rest)
      by (rewrite <- app_assoc; reflexivity).
    rewrite IH by (auto; simpl in *; lia).
    cbn [firstn]. rewrite delete_shift_cons2. cbv zeta.
    destruct (delete_shift ks key (Z.lor v (ct_compare (firstn ks e) key)) (e' :: firstn fuel rest))
      as [v2 l2] eqn:E.
    cbn [fst snd repeat concat]. rewrite <- !app_assoc. reflexivity.
Qed.

Lemma remove_first_app (p : entry -> bool) (xs ys : list entry) :
  existsb p xs = false -> remove_first p (xs ++ ys) = xs ++ remove_first p ys.
Proof.
  induction xs as [|x xs IH]; simpl; auto.
  rewrite orb_false_iff. intros [-> H]. rewrite IH; auto.
Qed.

Lemma length_remove_first (p : entry -> bool) (l : list entry) :
  existsb p l = true -> S (length (remove_first p l)) = length l.
Proof.
  induction l as [|e l IH]; simpl; [discriminate|].
  destruct (p e); simpl; auto.
Qed.

Lemma existsb_last (p : entry -> bool) (e : entry) (l : list entry) :
  existsb p (e :: l) = existsb p (removelast (e :: l)) || p (last (e :: l) []).
Proof.
  rewrite (app_removelast_last [] (l := e :: l)) at 1 by discriminate.
  rewrite existsb_app. simpl. rewrite orb_false_r. reflexivity.
Qed.

Section DeletePure.

Variables (ks vs : nat) (key : list byte).
Hypotheses (Hk : length key = ks) (Hkb : bytes_ok key = true).

Lemma delete_shift_1 (l : list entry) : forall e,
  forallb (wf_entry ks vs) (e :: l) = true ->
  delete_shift ks key 1 (e :: l) = (1, l ++ [last (e :: l) []]).
Proof.
  induction l as [|e' l IH]; intros e Hl; [reflexivity|].
  cbn [forallb] in Hl. apply andb_true_iff in Hl as [He Hl].
  pose proof Hl as Hl'. apply andb_true_iff in Hl' as [He' _].
  destruct (wf_entry_lengths _ _ _ He) as (Hle & _ & _ & _).
  destruct (wf_entry_lengths _ _ _ He') as (Hle' & _ & _ & _).
  rewrite delete_shift_cons2. cbv zeta.
  rewrite (cmp_wf ks vs) by auto.
  replace (Z.lor 1 (Z.b2z (key_matches ks key e))) with 1 by (destruct key_matches; reflexivity).
  rewrite IH by auto.
  rewrite ct_copy_1 by (try congruence; eapply wf_entry_bytes; eauto).
  reflexivity.
Qed.

Lemma delete_shift_0 (l : list entry) : forall e,
  forallb (wf_entry ks vs) (e :: l) = true ->
  delete_shift ks key 0 (e :: l)
  = (Z.b2z (existsb (key_matches ks key) (removelast (e :: l))),
     if existsb (key_matches ks key) (removelast (e :: l))
     then remove_first (key_matches ks key) (e :: l) ++ [last (e :: l) []]
     else e :: l).
Proof.
  induction l as [|e' l IH]; intros e Hl; [reflexivity|].
  cbn [forallb] in Hl. apply andb_true_iff in Hl as [He Hl].
  pose proof Hl as Hl'. apply andb_true_iff in Hl' as [He' _].
  destruct (wf_entry_lengths _ _ _ He) as (Hle & _ & _ & _).
  destruct (wf_entry_lengths _ _ _ He') as (Hle' & _ & _ & _).
  rewrite delete_shift_cons2. cbv zeta.
  rewrite (cmp_wf ks vs) by auto.
  change (removelast (e :: e' :: l)) with (e :: removelast (e' :: l)).
  change (last (e :: e' :: l) []) with (last (e' :: l) []).
  cbn [existsb remove_first].
  destruct (key_matches ks key e); cbn [Z.b2z Z.lor orb].
  - rewrite delete_shift_1 by auto.
    rewrite ct_copy_1 by (try congruence; eapply wf_entry_bytes; eauto).
    reflexivity.
  - rewrite IH by auto.
    rewrite ct_copy_0 by (try congruence; eapply wf_entry_bytes; eauto).
    destruct (existsb (key_matches ks key) (removelast (e' :: l))); reflexivity.
Qed.

Lemma delete_shift_found (e : entry) (l : list entry) :
  forallb (wf_entry ks vs) (e :: l) = true ->
  existsb (key_matches ks key) (e :: l) = true ->
  snd (delete_shift ks key 0 (e :: l))
  = remove_first (key_matches ks key) (e :: l) ++ [last (e :: l) []].
Proof.
  intros Hl Hex. rewrite delete_shift_0 by auto. cbn [snd].
  destruct (existsb (key_matches ks key) (removelast (e :: l))) eqn:E; auto.
  rewrite existsb_last, E in Hex. cbn [orb] in Hex.
  pose proof (app_removelast_last [] (l := e :: l) ltac:(discriminate)) as Heq.
  remember (removelast (e :: l)) as xs. remember (last (e :: l) []) as y.
  rewrite Heq at 2. rewrite remove_first_app by auto. simpl. rewrite Hex, app_nil_r.
  exact Heq.
Qed.

End DeletePure.

Lemma forallb_last (p : entry -> bool) (e : entry) (l : list entry) :
  forallb p (e :: l) = true -> p (last (e :: l) []) = true.
Proof.
  rewrite (app_removelast_last [] (l := e :: l)) at 1 by discriminate.
  rewrite forallb_app. simpl. rewrite andb_true_iff, andb_true_r. tauto.
Qed.

Lemma map_land_255 (e : entry) :
  bytes_ok e = true -> map (fun b => Z.land b ((0 - 1) mod 256)) e = e.
Proof.
  induction e as [|a e IH]; simpl; auto.
  rewrite andb_true_iff. intros [Ha He]. apply is_byte_land in Ha.
  change (-1 mod 256) with 255. rewrite Ha. f_equal. auto.
Qed.

Lemma map_land_0 (e : entry) :
  map (fun b => Z.land b ((1 - 1) mod 256)) e = repeat 0 (length e).
Proof.
  induction e as [|a e IH]; cbn [map repeat length]; auto.
  rewrite IH. f_equal. apply Z.land_0_r.
Qed.

Lemma delete_shift_split (ks vs : nat) (key : list byte) (e : entry) (l : list entry) :
  length key = ks -> bytes_ok key = true ->
  forallb (wf_entry ks vs) (e :: l) = true ->
  delete_shift ks key 0 (e :: l)
  = (Z.b2z (existsb (key_matches ks key) (removelast (e :: l))),
     (if existsb (key_matches ks key) (e :: l)
      then remove_first (key_matches ks key) (e :: l)
      else removelast (e :: l)) ++ [last (e :: l) []]).
Proof.
  intros Hk Hkb Hl.
  destruct (existsb (key_matches ks key) (e :: l)) eqn:Ex.
  - rewrite <- (delete_shift_found ks vs key) by auto.
    rewrite (delete_shift_0 ks vs key) by auto. reflexivity.
  - rewrite (delete_shift_0 ks vs key) by auto.
    rewrite existsb_last, orb_false_iff in Ex. destruct Ex as [-> _].
    rewrite <- app_removelast_last by discriminate. reflexivity.
Qed.

Lemma firstn_cons_app (e : entry) (l r : list entry) :
  firstn (S (length l)) ((e :: l) ++ r) = e :: l.
Proof.
  change (S (length l)) with (length (e :: l)).
  rewrite firstn_app, firstn_all, Nat.sub_diag, firstn_O, app_nil_r. reflexivity.
Qed.

Lemma skipn_cons_app (e : entry) (l r : list entry) :
  skipn (S (length l)) ((e :: l) ++ r) = r.
Proof.
  change (S (length l)) with (length (e :: l)).
  rewrite skipn_app, skipn_all, Nat.sub_diag, skipn_O. reflexivity.
Qed.

Lemma nth_app_eq {A} (i : nat) (pre rest : list A) (e d : A) :
  length pre = i -> nth i (pre ++ e :: rest) d = e.
Proof. intros <-. apply nth_app_len. Qed.

Lemma set_nth_app_eq {A} (i : nat) (pre rest : list A) (e x : A) :
  length pre = i -> set_nth i x (pre ++ e :: rest) = pre ++ x :: rest.
Proof. intros <-. apply set_nth_app_len. Qed.

Lemma reslice_ok (hi : Z) (b : list entry) (n ks vs : nat) (tr : list prim) :
  0 <= hi <= Z.of_nat (length b) ->
  reslice hi (mkWorld (mkMap (mkSlice b n) ks vs) tr)
  = (Ok tt, mkWorld (mkMap (mkSlice b (Z.to_nat hi)) ks vs) tr).
Proof.
  intros H. unfold reslice, bind, get_map, cap. cbn [wmap m backing].
  replace ((hi <? 0) || (Z.of_nat (length b) <? hi)) with false
    by (symmetry; apply orb_false_iff; split; apply Z.ltb_ge; lia).
  reflexivity.
Qed.

Lemma b2z_lor (a c : bool) : Z.lor (Z.b2z a) (Z.b2z c) = Z.b2z (a || c).
Proof. destruct a, c; reflexivity. Qed.

Lemma Delete_run_split (ks vs : nat) (l r : list entry) (tr : list prim) (key : list byte) :
  forallb (wf_entry ks vs) l = true -> length key = ks -> bytes_ok key = true ->
  Delete key (mkWorld (mkMap (mkSlice (l ++ r) (length l)) ks vs) tr)
  = if existsb (key_matches ks key) l
    then (Ok 1, mkWorld (mkMap (mkSlice (remove_first (key_matches ks key) l
                                         ++ [repeat 0 (ks + vs)] ++ r) (length l - 1)) ks vs)
                        (tr ++ delete_trace (length l)))
    else (Ok 0, mkWorld (mkMap (mkSlice (l ++ r) (length l)) ks vs)
                        (tr ++ delete_trace (length l))).
Proof.
  intros Hl Hk Hkb.
  unfold Delete, bind at 1, get_map. cbn [wmap m len keySize]. rewrite Hk, Nat.eqb_refl.
  cbn [negb].
  destruct l as [|e l0]; [cbn; rewrite app_nil_r; reflexivity|].
  cbn [length Nat.eqb]. replace (S (length l0) - 1)%nat with (length l0) by lia.
  unfold bind at 1.
  pose proof (delete_loop ks vs key (length l0) Hk Hkb [] ((e :: l0) ++ r) 0 (S (length l0)) tr)
    as Hloop.
  rewrite firstn_cons_app, skipn_cons_app in Hloop.
  cbn [length app] in Hloop |- *.
  rewrite Hloop by (auto; rewrite length_app; simpl; lia).
  clear Hloop.
  rewrite (delete_shift_split ks vs) by auto. cbn [fst snd].
  set (X := if existsb (key_matches ks key) (e :: l0)
            then remove_first (key_matches ks key) (e :: l0) else removelast (e :: l0)).
  set (y := last (e :: l0) []).
  assert (HX : length X = length l0).
  { unfold X. destruct (existsb (key_matches ks key) (e :: l0)) eqn:Ex.
    - cbv beta match. apply length_remove_first in Ex. cbn [length] in Ex. lia.
    - cbv beta match. pose proof (app_removelast_last [] (l := e :: l0) ltac:(discriminate)) as H.
      apply (f_equal (@length entry)) in H. rewrite length_app in H.
      cbn [length] in H. lia. }
  assert (Hy : wf_entry ks vs y = true) by (apply forallb_last; auto).
  destruct (wf_entry_lengths _ _ _ Hy) as (Hyl & _ & _ & Hyleb).
  rewrite <- app_assoc. cbn [app].
  cbv [bind get_entry slice_to ConstantTimeCompare tick ret put_entry get_map put_slice].
  cbn [wmap m backing len keySize valSize trace].
  rewrite nth_app_eq by auto. rewrite Hyleb.
  cbn [wmap m backing len keySize valSize trace].
  rewrite (cmp_wf ks vs) by auto.
  rewrite set_nth_app_eq by auto.
  assert (Hv : Z.lor (Z.b2z (existsb (key_matches ks key) (removelast (e :: l0))))
                     (Z.b2z (key_matches ks key y))
               = Z.b2z (existsb (key_matches ks key) (e :: l0)))
    by (unfold y; rewrite b2z_lor, <- existsb_last; reflexivity).
  rewrite Hv.
  rewrite reslice_ok
    by (rewrite length_app; cbn [length]; destruct existsb; cbn [Z.b2z]; lia).
  cbn [wmap m backing len keySize valSize trace].
  unfold X, y. destruct (existsb (key_matches ks key) (e :: l0)) eqn:Ex; cbn [Z.b2z].
  - rewrite map_land_0. fold y. rewrite Hyl.
    replace (Z.to_nat (Z.of_nat (S (length l0)) - 1)) with (length l0) by lia.
    rewrite <- !app_assoc. reflexivity.
  - rewrite map_land_255 by (eapply wf_entry_bytes; eauto).
    replace (Z.to_nat (Z.of_nat (S (length l0)) - 0)) with (S (length l0)) by lia.
    pose proof (app_removelast_last [] (l := e :: l0) ltac:(discriminate)) as H.
    replace (removelast (e :: l0) ++ last (e :: l0) [] :: r) with ((e :: l0) ++ r)
      by (rewrite H at 1; rewrite <- app_assoc; reflexivity).
    rewrite <- !app_assoc. reflexivity.
Qed.

Lemma Delete_run (mp : Map) (tr : list prim) (key : list byte) :
  wf_map mp = true -> length key = keySize mp -> bytes_ok key = true ->
  Delete key (mkWorld mp tr)
  = if existsb (key_matches (keySize mp) key) (entries mp)
    then (Ok 1, mkWorld (mkMap (mkSlice (remove_first (key_matches (keySize mp) key) (entries mp)
                                         ++ [repeat 0 (keySize mp + valSize mp)]
                                         ++ skipn (len (m mp)) (backing (m mp)))
                                        (len (m mp) - 1))
                               (keySize mp) (valSize mp))
                        (tr ++ delete_trace (len (m mp))))
    else (Ok 0, mkWorld mp (tr ++ delete_trace (len (m mp)))).
Proof.
  intros Hwf Hk Hkb. destruct (wf_map_split mp Hwf) as [Hle Hall].
  pose proof (length_entries mp Hle) as Hlen.
  destruct mp as [[b n] ks vs]. unfold entries in *. cbn [m backing len keySize valSize cap] in *.
  unfold cap in Hle. cbn [backing] in Hle.
  pose proof (Delete_run_split ks vs (firstn n b) (skipn n b) tr key Hall Hk Hkb) as H.
  rewrite firstn_skipn, Hlen in H. rewrite H. reflexivity.
Qed.

(** ** Add *)

Lemma go_copy_same (dst src : list byte) :
  length dst = length src -> go_copy dst src = src.
Proof.
  intros H. unfold go_copy. rewrite H, firstn_all, skipn_all2, app_nil_r by lia. reflexivity.
Qed.

(** The entry built by [Add] is [key ++ val]. *)
Lemma Add_entry (ks vs : nat) (key val : list byte) :
  length key = ks -> length val = vs ->
  go_copy (firstn ks (repeat 0 (ks + vs))) key ++ go_copy (skipn ks (repeat 0 (ks + vs))) val
  = key ++ val.
Proof.
  intros Hk Hv. rewrite !go_copy_same; auto.
  - rewrite length_skipn, repeat_length. lia.
  - rewrite length_firstn, repeat_length. lia.
Qed.

Lemma Add_run (growcap : nat -> nat -> nat) (mp : Map) (tr : list prim) (key val : list byte) :
  length key = keySize mp -> length val = valSize mp ->
  Add growcap key val (mkWorld mp tr)
  = (Ok tt, mkWorld (mkMap (append growcap (m mp) (key ++ val)) (keySize mp) (valSize mp)) tr).
Proof.
  intros Hk Hv. unfold Add, bind at 1, get_map. cbn [wmap].
  rewrite Hk, Hv, !Nat.eqb_refl. cbn [negb].
  rewrite Add_entry by auto. unfold put_slice. destruct mp as [s ks vs]. reflexivity.
Qed.

Lemma firstn_set_nth {A} (n : nat) (x : A) (b : list A) :
  (n < length b)%nat -> firstn (S n) (set_nth n x b) = firstn n b ++ [x].
Proof.
  revert b; induction n as [|n IH]; intros [|y b] H; simpl in *; try lia.
  - reflexivity.
  - f_equal. apply IH. lia.
Qed.

Lemma length_set_nth' {A} (n : nat) (x : A) (b : list A) :
  length (set_nth n x b) = length b.
Proof. revert n; induction b as [|y b IH]; intros [|n]; simpl; auto. Qed.

(** [append] stores the new entry after the old ones. *)
Lemma entries_append (growcap : nat -> nat -> nat) (s : slice) (e : entry) :
  (len s <= cap s)%nat ->
  len (append growcap s e) = S (len s)
  /\ firstn (len (append growcap s e)) (backing (append growcap s e))
     = firstn (len s) (backing s) ++ [e]
  /\ (S (len s) <= cap (append growcap s e))%nat.
Proof.
  intros H. destruct s as [b n]. unfold append, cap in *. cbn [backing len] in *.
  destruct (Nat.ltb_spec n (length b)) as [Hlt|Hge]; cbn [backing len].
  - split; [reflexivity|]. split; [apply firstn_set_nth; auto|].
    rewrite length_set_nth'. lia.
  - assert (n = length b) by lia. subst n.
    rewrite firstn_all. split; [reflexivity|]. split.
    + replace (S (length b)) with (length (b ++ [e])) by (rewrite length_app; simpl; lia).
      rewrite app_assoc, firstn_app, firstn_all, Nat.sub_diag. simpl. apply app_nil_r.
    + rewrite !length_app. simpl. lia.
Qed.

(** With spare capacity, [append] does not reallocate: the capacity stays. *)
Lemma append_in_place (growcap : nat -> nat -> nat) (s : slice) (e : entry) :
  (len s < cap s)%nat -> cap (append growcap s e) = cap s.
Proof.
  intros H. unfold append. apply Nat.ltb_lt in H. rewrite H. unfold cap. cbn [backing].
  apply length_set_nth'.
Qed.

(** ** Well-formedness is preserved *)

Lemma wf_map_intro (mp : Map) :
  (len (m mp) <= cap (m mp))%nat -> forallb (wf_entry (keySize mp) (valSize mp)) (entries mp) = true ->
  wf_map mp = true.
Proof. intros H1 H2. unfold wf_map. rewrite H2, andb_true_r. apply Nat.leb_le. auto. Qed.

Lemma wf_with_entries (mp : Map) (es : list entry) :
  wf_map mp = true -> length es = len (m mp) ->
  forallb (wf_entry (keySize mp) (valSize mp)) es = true ->
  wf_map (with_entries mp es) = true.
Proof.
  intros Hwf Hl Hes. destruct (wf_map_split mp Hwf) as [Hle _].
  apply wf_map_intro; rewrite ?entries_with_entries by auto; auto.
  destruct mp as [[b n] ks vs]. unfold with_entries, cap in *. cbn in *.
  rewrite length_app, length_skipn. lia.
Qed.

Lemma wf_entry_app (ks vs : nat) (k v : list byte) :
  length k = ks -> bytes_ok k = true -> length v = vs -> bytes_ok v = true ->
  wf_entry ks vs (k ++ v) = true.
Proof.
  intros. unfold wf_entry, bytes_ok in *. rewrite length_app, forallb_app.
  apply andb_true_iff; split; [apply Nat.eqb_eq; lia|]. apply andb_true_iff; auto.
Qed.

Lemma forallb_update_first (p q : entry -> bool) (f : entry -> entry) (l : list entry) :
  (forall e, p e = true -> p (f e) = true) ->
  forallb p l = true -> forallb p (update_first q f l) = true.
Proof.
  intros Hf. induction l as [|e l IH]; simpl; auto.
  rewrite andb_true_iff. intros [He Hl]. destruct (q e); simpl; rewrite ?He, ?Hf, ?IH; auto.
Qed.

Lemma length_update_first (q : entry -> bool) (f : entry -> entry) (l : list entry) :
  length (update_first q f l) = length l.
Proof. induction l as [|e l IH]; simpl; auto. destruct (q e); simpl; auto. Qed.

Lemma forallb_remove_first (p q : entry -> bool) (l : list entry) :
  forallb p l = true -> forallb p (remove_first q l) = true.
Proof.
  induction l as [|e l IH]; simpl; auto.
  rewrite andb_true_iff. intros [He Hl]. destruct (q e); simpl; rewrite ?He, ?IH; auto.
Qed.

Lemma remove_first_le (q : entry -> bool) (l : list entry) :
  (length (remove_first q l) <= length l)%nat.
Proof. induction l as [|e l IH]; simpl; auto. destruct (q e); simpl; lia. Qed.

(** The first element satisfying [p], with the elements before it. *)
Lemma first_match (p : entry -> bool) (l : list entry) :
  existsb p l = true ->
  exists pre e post, l = pre ++ e :: post /\ existsb p pre = false /\ p e = true.
Proof.
  induction l as [|x l IH]; simpl; [discriminate|].
  destruct (p x) eqn:Hx; simpl.
  - intros _. exists [], x, l. auto.
  - intros H. destruct (IH H) as (pre & e & post & -> & Hpre & He).
    exists (x :: pre), e, post. simpl. rewrite Hx. auto.
Qed.

Lemma update_first_split (p : entry -> bool) (f : entry -> entry) (pre post : list entry) (e : entry) :
  existsb p pre = false -> p e = true ->
  update_first p f (pre ++ e :: post) = pre ++ f e :: post.
Proof.
  intros Hpre He. induction pre as [|x pre IH]; simpl in *.
  - rewrite He. reflexivity.
  - apply orb_false_iff in Hpre as [-> Hpre]. rewrite IH; auto.
Qed.

Lemma remove_first_split (p : entry -> bool) (pre post : list entry) (e : entry) :
  existsb p pre = false -> p e = true ->
  remove_first p (pre ++ e :: post) = pre ++ post.
Proof.
  intros Hpre He. rewrite remove_first_app by auto. simpl. rewrite He. reflexivity.
Qed.

Lemma find_split (p : entry -> bool) (pre post : list entry) (e : entry) :
  existsb p pre = false -> p e = true ->
  find p (pre ++ e :: post) = Some e.
Proof.
  intros Hpre He. induction pre as [|x pre IH]; simpl in *.
  - rewrite He. reflexivity.
  - apply orb_false_iff in Hpre as [-> Hpre]. auto.
Qed.

Lemma find_none (p : entry -> bool) (l : list entry) :
  existsb p l = false -> find p l = None.
Proof.
  induction l as [|x l IH]; simpl; auto. rewrite orb_false_iff. intros [-> H]. auto.
Qed.

Lemma find_some_existsb (p : entry -> bool) (l : list entry) (e : entry) :
  find p l = Some e -> existsb p l = true.
Proof.
  induction l as [|x l IH]; simpl; [discriminate|].
  destruct (p x); simpl; auto.
Qed.

(** ** Commands on a well-formed map *)

Lemma fmap_ok {A B} (f : A -> B) (c : M A) (w w' : world) (a : A) :
  c w = (Ok a, w') -> fmap f c w = (Ok (f a), w').
Proof. intros H. unfold fmap, bind, ret. rewrite H. reflexivity. Qed.

Lemma fmap_panic {A B} (f : A -> B) (c : M A) (w w' : world) (s : string) :
  c w = (Panic s, w') -> fmap f c w = (Panic s, w').
Proof. intros H. unfold fmap, bind. rewrite H. reflexivity. Qed.

Ltac valid_tac H :=
  unfold valid_cmd, bad_args, cmd_args in H;
  repeat match type of H with
         | context [Nat.eqb ?a ?b] =>
             let E := fresh "E" in
             destruct (Nat.eqb_spec a b) as [E|E]; [|simpl in H; discriminate]
         end;
  simpl in H; rewrite ?andb_true_r, ?andb_true_iff in H.

Lemma forallb_map_wf (ks vs : nat) (f : entry -> entry) (l : list entry) :
  (forall e, wf_entry ks vs e = true -> wf_entry ks vs (f e) = true) ->
  forallb (wf_entry ks vs) l = true -> forallb (wf_entry ks vs) (map f l) = true.
Proof.
  intros Hf. induction l as [|e l IH]; simpl; auto.
  rewrite !andb_true_iff. intros [He Hl]. auto.
Qed.

Lemma wf_entry_set (ks vs : nat) (key val : list byte) (e : entry) :
  length val = vs -> bytes_ok val = true -> wf_entry ks vs e = true ->
  wf_entry ks vs (if key_matches ks key e then firstn ks e ++ val else e) = true.
Proof.
  intros Hv Hvb He. destruct (key_matches ks key e); auto.
  destruct (wf_entry_lengths _ _ _ He) as (Hl & _ & _ & _).
  apply wf_entry_app; auto.
  - rewrite length_firstn. lia.
  - apply bytes_ok_firstn. apply wf_entry_bytes with ks vs. auto.
Qed.

Lemma wf_entry_rename (ks vs : nat) (newKey : list byte) (e : entry) :
  length newKey = ks -> bytes_ok newKey = true -> wf_entry ks vs e = true ->
  wf_entry ks vs (newKey ++ skipn ks e) = true.
Proof.
  intros Hn Hnb He. destruct (wf_entry_lengths _ _ _ He) as (Hl & _ & _ & _).
  apply wf_entry_app; auto.
  - rewrite length_skipn. lia.
  - apply bytes_ok_skipn. apply wf_entry_bytes with ks vs. auto.
Qed.

(** One valid call on a well-formed map does not panic, keeps the map
    well-formed with the same sizes, and changes the number of entries by
    [len_change]. *)
Lemma exec_valid (growcap : nat -> nat -> nat) (mp : Map) (tr : list prim) (c : cmd) :
  wf_map mp = true -> valid_cmd (keySize mp) (valSize mp) c = true ->
  exists r mp' t, exec_cmd growcap c (mkWorld mp tr) = (Ok r, mkWorld mp' (tr ++ t))
    /\ wf_map mp' = true /\ keySize mp' = keySize mp /\ valSize mp' = valSize mp
    /\ Z.of_nat (Len mp') = Z.of_nat (Len mp) + len_change c r.
Proof.
  intros Hwf Hc. pose proof (wf_map_split mp Hwf) as [Hle Hall].
  pose proof (length_entries mp Hle) as Hlen.
  destruct c as [key val|key val|ok nk val|ok nk|key|key val|key]; valid_tac Hc.
  - (* Add *)
    destruct (entries_append growcap (m mp) (key ++ val) Hle) as (Hl & He & Hc').
    eexists _, _, []. rewrite app_nil_r. split.
    { apply fmap_ok. apply Add_run; auto. }
    split; [|split; [reflexivity|split; [reflexivity|]]].
    + apply wf_map_intro; cbn [m keySize valSize]; [rewrite Hl; auto|].
      unfold entries. cbn [m]. rewrite He. fold (entries mp).
      rewrite forallb_app, Hall. simpl. rewrite andb_true_r.
      destruct Hc as [Hkb Hvb]. apply wf_entry_app; auto.
    + unfold Len. cbn [m len_change]. rewrite Hl. lia.
  - (* Set *)
    destruct Hc as [Hkb Hvb].
    eexists _, _, _. split; [apply fmap_ok, Set_run; auto|].
    split; [|split; [reflexivity|split; [reflexivity|]]].
    + apply wf_with_entries; auto; [rewrite length_map; auto|].
      apply forallb_map_wf; auto. intros. apply wf_entry_set; auto.
    + unfold Len, with_entries. cbn. lia.
  - (* Replace *)
    destruct Hc as [Hkb [Hnb Hvb]].
    eexists _, _, _. split; [apply fmap_ok, Replace_run; auto|].
    split; [|split; [reflexivity|split; [reflexivity|]]].
    + apply wf_with_entries; auto; [rewrite length_update_first; auto|].
      apply forallb_update_first; auto. intros. apply wf_entry_app; auto.
    + unfold Len, with_entries. cbn. lia.
  - (* Rename *)
    destruct Hc as [Hkb Hnb].
    eexists _, _, _. split; [apply fmap_ok, Rename_run; auto|].
    split; [|split; [reflexivity|split; [reflexivity|]]].
    + apply wf_with_entries; auto; [rewrite length_update_first; auto|].
      apply forallb_update_first; auto. intros. apply wf_entry_rename; auto.
    + unfold Len, with_entries. cbn. lia.
  - (* Contains *)
    eexists _, _, _. split; [apply fmap_ok, Contains_run; auto|]. cbn. repeat split; auto; lia.
  - (* Lookup *)
    destruct Hc as [Hkb Hvb].
    eexists _, _, _. split; [apply fmap_ok, Lookup_run; auto|]. cbn. repeat split; auto; lia.
  - (* Delete *)
    pose proof (Delete_run mp tr key Hwf E Hc) as HD.
    destruct (existsb (key_matches (keySize mp) key) (entries mp)) eqn:Hex;
      (eexists _, _, _; split; [apply fmap_ok; exact HD|]).
    + pose proof (length_remove_first _ _ Hex) as Hr.
      split; [|split; [reflexivity|split; [reflexivity|]]].
      * apply wf_map_intro; cbn [m keySize valSize len backing]; unfold cap; cbn [backing].
        -- rewrite !length_app. lia.
        -- unfold entries. cbn [m len backing].
           replace (len (m mp) - 1)%nat with (length (remove_first (key_matches (keySize mp) key) (entries mp))) by lia.
           rewrite firstn_app, firstn_all, Nat.sub_diag, firstn_O, app_nil_r.
           apply forallb_remove_first. auto.
      * unfold Len, len_change. cbn [m len]. rewrite Z.eqb_refl. lia.
    + cbn. repeat split; auto; lia.
Qed.

Lemma run_valid (growcap : nat -> nat -> nat) (cs : list cmd) : forall (mp : Map) (tr : list prim),
  wf_map mp = true -> forallb (valid_cmd (keySize mp) (valSize mp)) cs = true ->
  exists rs mp' t, run_cmds growcap cs (mkWorld mp tr) = (Ok rs, mkWorld mp' (tr ++ t))
    /\ wf_map mp' = true /\ keySize mp' = keySize mp /\ valSize mp' = valSize mp
    /\ Z.of_nat (Len mp') = Z.of_nat (Len mp) + Z.of_nat (adds cs) - Z.of_nat (deletes_ok cs rs).
Proof.
  induction cs as [|c cs IH]; intros mp tr Hwf Hcs.
  - exists [], mp, []. rewrite app_nil_r. cbn. repeat split; auto. lia.
  - cbn [forallb] in Hcs. apply andb_true_iff in Hcs as [Hc Hcs].
    destruct (exec_valid growcap mp tr c Hwf Hc) as (r & mp1 & t1 & H1 & Hwf1 & Hk1 & Hv1 & Hl1).
    rewrite <- Hk1, <- Hv1 in Hcs.
    destruct (IH mp1 (tr ++ t1) Hwf1 Hcs) as (rs & mp2 & t2 & H2 & Hwf2 & Hk2 & Hv2 & Hl2).
    exists (r :: rs), mp2, (t1 ++ t2). cbn [run_cmds]. unfold bind at 1. rewrite H1.
    unfold bind. rewrite H2. unfold ret. rewrite app_assoc.
    split; [reflexivity|]. split; [auto|]. split; [congruence|]. split; [congruence|].
    rewrite Hl2, Hl1.
    destruct c; cbn [len_change adds deletes_ok]; try lia.
    destruct r as [|v|v val]; cbn [len_change deletes_ok]; try lia.
    destruct (Z.eqb v 1); lia.
Qed.

(** The primitive calls of a valid call depend on the number of entries only. *)
Lemma exec_trace (growcap : nat -> nat -> nat) (mp : Map) (tr : list prim) (c : cmd) :
  wf_map mp = true -> valid_cmd (keySize mp) (valSize mp) c = true ->
  trace (snd (exec_cmd growcap c (mkWorld mp tr))) = tr ++ op_trace c (Len mp).
Proof.
  intros Hwf Hc. destruct c as [key val|key val|ok nk val|ok nk|key|key val|key]; valid_tac Hc; cbn [exec_cmd].
  - erewrite fmap_ok by (apply Add_run; auto). cbn. rewrite app_nil_r. reflexivity.
  - destruct Hc. erewrite fmap_ok by (apply Set_run; auto). reflexivity.
  - destruct Hc as (? & ? & ?). erewrite fmap_ok by (apply Replace_run; auto). reflexivity.
  - destruct Hc. erewrite fmap_ok by (apply Rename_run; auto). reflexivity.
  - erewrite fmap_ok by (apply Contains_run; auto). reflexivity.
  - destruct Hc. erewrite fmap_ok by (apply Lookup_run; auto). reflexivity.
  - pose proof (Delete_run mp tr key Hwf E Hc) as HD.
    destruct (existsb (key_matches (keySize mp) key) (entries mp));
      erewrite fmap_ok by exact HD; reflexivity.
Qed.

Lemma wf_New (ks vs : nat) : wf_map (New ks vs) = true.
Proof. reflexivity. Qed.

Lemma wf_NewWithCapacity (ks vs c : nat) : wf_map (NewWithCapacity ks vs c) = true.
Proof. unfold wf_map, entries, cap. cbn. reflexivity. Qed.

Lemma key_matches_eq (ks : nat) (key : list byte) (e : entry) :
  key_matches ks key e = true -> firstn ks e = key.
Proof. unfold key_matches. apply bytes_eqb_eq. Qed.

Lemma existsb_find (p : entry -> bool) (l : list entry) :
  existsb p l = match find p l with Some _ => true | None => false end.
Proof. induction l as [|x l IH]; simpl; auto. destruct (p x); simpl; auto. Qed.

Lemma existsb_split (p : entry -> bool) (pre post : list entry) (e : entry) :
  p e = true -> existsb p (pre ++ e :: post) = true.
Proof. intros He. rewrite existsb_app. simpl. rewrite He, orb_true_r. reflexivity. Qed.

(** ** Lemmas for composed calls *)

Lemma key_matches_app (ks : nat) (key val : list byte) :
  length key = ks -> key_matches ks key (key ++ val) = true.
Proof.
  intros Hk. unfold key_matches.
  rewrite <- Hk, firstn_app, firstn_all, Nat.sub_diag, firstn_O, app_nil_r.
  apply bytes_eqb_eq. reflexivity.
Qed.

Lemma Add_result (growcap : nat -> nat -> nat) (mp : Map) (tr : list prim) (key val : list byte) :
  wf_map mp = true -> length key = keySize mp -> bytes_ok key = true ->
  length val = valSize mp -> bytes_ok val = true ->
  exists mp', Add growcap key val (mkWorld mp tr) = (Ok tt, mkWorld mp' tr)
    /\ wf_map mp' = true /\ entries mp' = entries mp ++ [key ++ val]
    /\ keySize mp' = keySize mp /\ valSize mp' = valSize mp /\ Len mp' = S (Len mp).
Proof.
  intros Hwf Hk Hkb Hv Hvb. destruct (wf_map_split mp Hwf) as [Hle Hall].
  destruct (entries_append growcap (m mp) (key ++ val) Hle) as (Hl & He & Hc).
  eexists. split; [apply Add_run; auto|].
  assert (Hent : entries (mkMap (append growcap (m mp) (key ++ val)) (keySize mp) (valSize mp))
                 = entries mp ++ [key ++ val]) by (unfold entries; cbn [m]; rewrite He; reflexivity).
  split; [|split; [exact Hent|split; [reflexivity|split; [reflexivity|]]]].
  - apply wf_map_intro; cbn [m keySize valSize]; [rewrite Hl; auto|].
    rewrite Hent, forallb_app, Hall. simpl. rewrite andb_true_r. apply wf_entry_app; auto.
  - unfold Len. cbn [m]. exact Hl.
Qed.

Lemma Delete_found (mp : Map) (tr : list prim) (key : list byte) :
  wf_map mp = true -> length key = keySize mp -> bytes_ok key = true ->
  existsb (key_matches (keySize mp) key) (entries mp) = true ->
  exists mp' t, Delete key (mkWorld mp tr) = (Ok 1, mkWorld mp' t)
    /\ wf_map mp' = true
    /\ entries mp' = remove_first (key_matches (keySize mp) key) (entries mp)
    /\ keySize mp' = keySize mp /\ valSize mp' = valSize mp.
Proof.
  intros Hwf Hk Hkb Hex. destruct (wf_map_split mp Hwf) as [Hle Hall].
  pose proof (length_entries mp Hle) as Hlen.
  pose proof (length_remove_first _ _ Hex) as Hr.
  rewrite Delete_run by auto. rewrite Hex.
  assert (Hent : entries (mkMap (mkSlice (remove_first (key_matches (keySize mp) key) (entries mp)
                                          ++ [repeat 0 (keySize mp + valSize mp)]
                                          ++ skipn (len (m mp)) (backing (m mp)))
                                         (len (m mp) - 1)) (keySize mp) (valSize mp))
                 = remove_first (key_matches (keySize mp) key) (entries mp)).
  { unfold entries. cbn [m len backing].
    replace (len (m mp) - 1)%nat
      with (length (remove_first (key_matches (keySize mp) key) (entries mp))) by lia.
    rewrite firstn_app, firstn_all, Nat.sub_diag, firstn_O, app_nil_r. reflexivity. }
  eexists _, _. split; [reflexivity|]. split; [|split; [exact Hent|split; reflexivity]].
  apply wf_map_intro; cbn [m keySize valSize len backing].
  - unfold cap. cbn [backing]. rewrite !length_app. lia.
  - rewrite Hent. apply forallb_remove_first. auto.
Qed.

Lemma Delete_absent (mp : Map) (tr : list prim) (key : list byte) :
  wf_map mp = true -> length key = keySize mp -> bytes_ok key = true ->
  existsb (key_matches (keySize mp) key) (entries mp) = false ->
  Delete key (mkWorld mp tr) = (Ok 0, mkWorld mp (tr ++ delete_trace (len (m mp)))).
Proof. intros Hwf Hk Hkb Hex. rewrite Delete_run by auto. rewrite Hex. reflexivity. Qed.

Lemma map_no_match (p : entry -> bool) (g : entry -> entry) (l : list entry) :
  existsb p l = false -> map (fun e => if p e then g e else e) l = l.
Proof.
  induction l as [|x l IH]; simpl; auto. rewrite orb_false_iff. intros [-> H]. rewrite IH; auto.
Qed.

Lemma update_first_no_match (p : entry -> bool) (f : entry -> entry) (l : list entry) :
  existsb p l = false -> update_first p f l = l.
Proof.
  induction l as [|x l IH]; simpl; auto. rewrite orb_false_iff. intros [-> H]. rewrite IH; auto.
Qed.

Lemma with_entries_self (mp : Map) : with_entries mp (entries mp) = mp.
Proof.
  destruct mp as [[b n] ks vs]. unfold with_entries, entries. cbn.
  rewrite firstn_skipn. reflexivity.
Qed.

Lemma with_entries_twice (mp : Map) (es es' : list entry) :
  length es = len (m mp) -> with_entries (with_entries mp es) es' = with_entries mp es'.
Proof.
  intros H. destruct mp as [[b n] ks vs]. unfold with_entries. cbn [m len backing keySize valSize] in *.
  rewrite <- H, skipn_app, skipn_all, Nat.sub_diag, skipn_O. reflexivity.
Qed.

Lemma cap_with_entries (mp : Map) (es : list entry) :
  (len (m mp) <= cap (m mp))%nat -> length es = len (m mp) ->
  cap (m (with_entries mp es)) = cap (m mp).
Proof.
  intros Hle H. destruct mp as [[b n] ks vs]. unfold with_entries, cap in *. cbn in *.
  rewrite length_app, length_skipn. lia.
Qed.

(** [Set]'s update of one entry keeps its key region. *)
Lemma set_keeps_key (ks vs : nat) (key val : list byte) (e : entry) :
  wf_entry ks vs e = true ->
  key_matches ks key (if key_matches ks key e then firstn ks e ++ val else e)
  = key_matches ks key e.
Proof.
  intros He. destruct (key_matches ks key e) eqn:Hm; auto.
  destruct (wf_entry_lengths _ _ _ He) as (_ & Hf & _ & _).
  unfold key_matches in *. rewrite <- Hf at 1.
  rewrite firstn_app, firstn_all, Nat.sub_diag, firstn_O, app_nil_r. exact Hm.
Qed.

Lemma wf_Set_map (mp : Map) (key val : list byte) :
  wf_map mp = true -> length val = valSize mp -> bytes_ok val = true ->
  wf_map (with_entries mp (map (fun e => if key_matches (keySize mp) key e
                                         then firstn (keySize mp) e ++ val else e) (entries mp)))
  = true.
Proof.
  intros Hwf Hv Hvb. destruct (wf_map_split mp Hwf) as [Hle Hall].
  apply wf_with_entries; auto; [rewrite length_map; apply length_entries; auto|].
  apply forallb_map_wf; auto. intros. apply wf_entry_set; auto.
Qed.

Lemma prim_count_app (p : prim) (a b : list prim) :
  prim_count p (a ++ b) = (prim_count p a + prim_count p b)%nat.
Proof. unfold prim_count. rewrite filter_app, length_app. reflexivity. Qed.

Lemma prim_count_repeat (p : prim) (l : list prim) (n : nat) :
  prim_count p (concat (repeat l n)) = (n * prim_count p l)%nat.
Proof.
  induction n as [|n IH]; [reflexivity|].
  cbn [repeat concat]. rewrite prim_count_app, IH. lia.
Qed.

(** One valid call never lowers the capacity, and keeps it unless it is an
    [Add] on a full backing array. *)
Lemma exec_cap (growcap : nat -> nat -> nat) (mp : Map) (tr : list prim) (c : cmd) :
  wf_map mp = true -> valid_cmd (keySize mp) (valSize mp) c = true ->
  (cap (m mp) <= cap (m (wmap (snd (exec_cmd growcap c (mkWorld mp tr))))))%nat
  /\ (match c with CAdd _ _ => (Len mp < cap (m mp))%nat | _ => True end ->
      cap (m (wmap (snd (exec_cmd growcap c (mkWorld mp tr))))) = cap (m mp)).
Proof.
  intros Hwf Hc. pose proof (wf_map_split mp Hwf) as [Hle Hall].
  pose proof (length_entries mp Hle) as Hlen.
  destruct c as [key val|key val|ok nk val|ok nk|key|key val|key]; valid_tac Hc; cbn [exec_cmd].
  - erewrite fmap_ok by (apply Add_run; auto). cbn [snd wmap m].
    destruct (entries_append growcap (m mp) (key ++ val) Hle) as (_ & _ & Hc').
    split.
    + destruct (Nat.lt_ge_cases (len (m mp)) (cap (m mp))) as [Hlt|Hge].
      * rewrite append_in_place by exact Hlt. lia.
      * lia.
    + intros Hlt. apply append_in_place. exact Hlt.
  - destruct Hc. erewrite fmap_ok by (apply Set_run; auto). cbn [snd wmap].
    rewrite cap_with_entries by (rewrite ?length_map; auto). auto.
  - destruct Hc as (? & ? & ?). erewrite fmap_ok by (apply Replace_run; auto). cbn [snd wmap].
    rewrite cap_with_entries by (rewrite ?length_update_first; auto). auto.
  - destruct Hc. erewrite fmap_ok by (apply Rename_run; auto). cbn [snd wmap].
    rewrite cap_with_entries by (rewrite ?length_update_first; auto). auto.
  - erewrite fmap_ok by (apply Contains_run; auto). cbn. auto.
  - destruct Hc. erewrite fmap_ok by (apply Lookup_run; auto). cbn. auto.
  - pose proof (Delete_run mp tr key Hwf E Hc) as HD.
    destruct (existsb (key_matches (keySize mp) key) (entries mp)) eqn:Hex;
      erewrite fmap_ok by exact HD; cbn [snd wmap m]; [|auto].
    pose proof (length_remove_first _ _ Hex) as Hr. unfold cap in *. cbn [backing].
    rewrite !length_app, length_skipn. cbn [length]. split; intros; lia.
Qed.

Lemma skipn_key (ks : nat) (key val : list byte) :
  length key = ks -> skipn ks (key ++ val) = val.
Proof. intros Hk. rewrite <- Hk, skipn_app, skipn_all, Nat.sub_diag, skipn_O. reflexivity. Qed.

Lemma existsb_set_map (ks vs : nat) (key val : list byte) (l : list entry) :
  forallb (wf_entry ks vs) l = true ->
  existsb (key_matches ks key)
    (map (fun e => if key_matches ks key e then firstn ks e ++ val else e) l)
  = existsb (key_matches ks key) l.
Proof.
  induction l as [|e l IH]; simpl; auto. rewrite andb_true_iff. intros [He Hl].
  rewrite (set_keeps_key ks vs), IH by auto. reflexivity.
Qed.

Lemma set_map_twice (ks vs : nat) (key v1 v2 : list byte) (l : list entry) :
  forallb (wf_entry ks vs) l = true ->
  map (fun e => if key_matches ks key e then firstn ks e ++ v2 else e)
    (map (fun e => if key_matches ks key e then firstn ks e ++ v1 else e) l)
  = map (fun e => if key_matches ks key e then firstn ks e ++ v2 else e) l.
Proof.
  induction l as [|e l IH]; simpl; auto. rewrite andb_true_iff. intros [He Hl].
  rewrite IH by auto. f_equal.
  rewrite (set_keeps_key ks vs) by exact He.
  destruct (key_matches ks key e) eqn:Hm; auto.
  destruct (wf_entry_lengths _ _ _ He) as (_ & Hf & _ & _).
  rewrite <- Hf at 1. rewrite firstn_app, firstn_all, Nat.sub_diag, firstn_O, app_nil_r.
  reflexivity.
Qed.

Lemma wf_update_first_map (mp : Map) (p : entry -> bool) (f : entry -> entry) :
  wf_map mp = true ->
  (forall e, wf_entry (keySize mp) (valSize mp) e = true ->
             wf_entry (keySize mp) (valSize mp) (f e) = true) ->
  wf_map (with_entries mp (update_first p f (entries mp))) = true.
Proof.
  intros Hwf Hf. destruct (wf_map_split mp Hwf) as [Hle Hall].
  apply wf_with_entries; auto.
  - rewrite length_update_first. apply length_entries. auto.
  - apply forallb_update_first; auto.
Qed.

Lemma with_entries_nil (mp : Map) : len (m mp) = O -> with_entries mp [] = mp.
Proof. destruct mp as [[b n] ks vs]. cbn. intros ->. reflexivity. Qed.

Lemma wf_empty (mp : Map) : len (m mp) = O -> wf_map mp = true.
Proof.
  destruct mp as [[b n] ks vs]. cbn. intros ->. unfold wf_map, entries. cbn.
  destruct (Nat.leb_spec 0 (cap (mkSlice b 0))); [reflexivity|lia].
Qed.

Lemma run_cap (growcap : nat -> nat -> nat) (cs : list cmd) : forall (mp : Map) (tr : list prim),
  wf_map mp = true -> forallb (valid_cmd (keySize mp) (valSize mp)) cs = true ->
  (Len mp + adds cs <= cap (m mp))%nat ->
  exists rs mp' t, run_cmds growcap cs (mkWorld mp tr) = (Ok rs, mkWorld mp' (tr ++ t))
    /\ cap (m mp') = cap (m mp).
Proof.
  induction cs as [|c cs IH]; intros mp tr Hwf Hcs Hroom.
  - exists [], mp, []. rewrite app_nil_r. auto.
  - cbn [forallb] in Hcs. apply andb_true_iff in Hcs as [Hc Hcs].
    destruct (exec_valid growcap mp tr c Hwf Hc) as (r & mp1 & t1 & H1 & Hwf1 & Hk1 & Hv1 & Hl1).
    destruct (exec_cap growcap mp tr c Hwf Hc) as [_ Hcap].
    rewrite H1 in Hcap. cbn [snd wmap] in Hcap.
    assert (Hcap1 : cap (m mp1) = cap (m mp)).
    { apply Hcap. destruct c; auto. cbn [adds] in Hroom. lia. }
    rewrite <- Hk1, <- Hv1 in Hcs.
    assert (Hroom1 : (Len mp1 + adds cs <= cap (m mp1))%nat).
    { rewrite Hcap1. cut (Z.of_nat (Len mp1) + Z.of_nat (adds cs) <= Z.of_nat (Len mp) + Z.of_nat (adds (c :: cs)))%Z; [lia|].
      rewrite Hl1. destruct c; cbn [len_change adds]; try lia.
      destruct r as [|v|v val]; try lia. destruct (Z.eqb v 1); lia. }
    destruct (IH mp1 (tr ++ t1) Hwf1 Hcs Hroom1) as (rs & mp2 & t2 & H2 & Hc2).
    exists (r :: rs), mp2, (t1 ++ t2). cbn [run_cmds]. unfold bind at 1. rewrite H1.
    unfold bind. rewrite H2. unfold ret. rewrite app_assoc. split; [reflexivity|]. congruence.
Qed.

(** * The claims *)

(** C1 (defect of [Set]): on the example of the specification, the map
    [[0xA5,0x5A],[0xA5,0x5A]] with [Set([0xA5],[0xFF])], [Set] returns 1 but
    writes [0xFF] into both entries, so the second duplicate is not left
    unchanged. Its loop gates each copy on the raw comparison alone, with no
    running flag; on the same map the sibling [Replace], whose gate is
    [c &^ v], changes the first entry only. *)
Lemma Set_dup_updates_later_match :
  fst (Set_ [165] [255] (mkWorld dup_map [])) = Ok 1
  /\ entries (wmap (snd (Set_ [165] [255] (mkWorld dup_map [])))) = [[165; 255]; [165; 255]]
  /\ entries (wmap (snd (Set_ [165] [255] (mkWorld dup_map [])))) <> [[165; 255]; [165; 90]]
  /\ fst (Replace [165] [165] [255] (mkWorld dup_map [])) = Ok 1
  /\ entries (wmap (snd (Replace [165] [165] [255] (mkWorld dup_map []))))
     = [[165; 255]; [165; 90]].
Proof.
  split; [vm_compute; reflexivity|]. split; [vm_compute; reflexivity|].
  split; [vm_compute; congruence|].
  split; vm_compute; reflexivity.
Qed.

(** C2 (amended): on a well-formed map, with [key] of length [keySize],
    [Delete(key)] leaves the capacity of the backing storage unchanged and
    reduces the length by its result; after a [Delete] that returned 1, a
    valid [Add] stores its entry in the freed slot without reallocating: the
    capacity is still the one before the [Delete]. *)
Theorem Delete_keeps_capacity (growcap : nat -> nat -> nat) (mp : Map) (tr : list prim)
    (key : list byte) :
  wf_map mp = true -> length key = keySize mp -> bytes_ok key = true ->
  cap (m (wmap (snd (Delete key (mkWorld mp tr))))) = cap (m mp)
  /\ (forall v, fst (Delete key (mkWorld mp tr)) = Ok v ->
        Z.of_nat (Len (wmap (snd (Delete key (mkWorld mp tr))))) = Z.of_nat (Len mp) - v)
  /\ (fst (Delete key (mkWorld mp tr)) = Ok 1 ->
      forall key' val', length key' = keySize mp -> length val' = valSize mp ->
        cap (m (wmap (snd (Add growcap key' val' (snd (Delete key (mkWorld mp tr)))))))
        = cap (m mp)).
Proof.
  intros Hwf Hk Hkb. destruct (wf_map_split mp Hwf) as [Hle _].
  pose proof (length_entries mp Hle) as Hlen.
  rewrite Delete_run by auto.
  destruct (existsb (key_matches (keySize mp) key) (entries mp)) eqn:Hex; cbn [fst snd wmap].
  - pose proof (length_remove_first _ _ Hex) as Hr. unfold cap in *.
    assert (Hcap : length (remove_first (key_matches (keySize mp) key) (entries mp)
                           ++ [repeat 0 (keySize mp + valSize mp)]
                           ++ skipn (len (m mp)) (backing (m mp))) = length (backing (m mp))).
    { rewrite !length_app, length_skipn. cbn [length]. lia. }
    split; [exact Hcap|]. split.
    + intros v Hv. injection Hv as <-. unfold Len. cbn [m len]. lia.
    + intros _ key' val' Hk' Hv'. rewrite Add_run by auto. cbn [wmap m keySize valSize].
      rewrite <- Hcap. apply (append_in_place growcap (mkSlice _ _)).
      unfold cap. cbn [backing len]. rewrite Hcap. lia.
  - split; [reflexivity|]. split.
    + intros v Hv. injection Hv as <-. lia.
    + discriminate.
Qed.

Lemma Delete_keeps_capacity_witness :
  wf_map one_map = true /\ length [1] = keySize one_map /\ bytes_ok [1] = true
  /\ (cap (m (wmap (snd (Delete [1] (mkWorld one_map []))))) = cap (m one_map)
      /\ (forall v, fst (Delete [1] (mkWorld one_map [])) = Ok v ->
            Z.of_nat (Len (wmap (snd (Delete [1] (mkWorld one_map []))))) = Z.of_nat (Len one_map) - v)
      /\ (fst (Delete [1] (mkWorld one_map [])) = Ok 1 ->
          forall key' val', length key' = keySize one_map -> length val' = valSize one_map ->
            cap (m (wmap (snd (Add double_cap key' val' (snd (Delete [1] (mkWorld one_map [])))))))
            = cap (m one_map))).
Proof.
  split; [reflexivity|]. split; [reflexivity|]. split; [reflexivity|].
  apply (Delete_keeps_capacity double_cap one_map [] [1]); reflexivity.
Defined.

(** C2, counterexample: a map of one entry and capacity 1; [Delete] of its key
    returns 1 and the capacity stays 1 (it is not reduced to 0). *)
Lemma Delete_capacity_counterexample :
  cap (m one_map) = 1%nat
  /\ fst (Delete [1] (mkWorld one_map [])) = Ok 1
  /\ Len (wmap (snd (Delete [1] (mkWorld one_map [])))) = 0%nat
  /\ cap (m (wmap (snd (Delete [1] (mkWorld one_map []))))) = 1%nat.
Proof. vm_compute. repeat split. Qed.

(** C3: on a well-formed map, with [key] of length [keySize]: if the entries
    are [pre ++ e :: post] where [e] is the first entry whose key region
    equals [key], [Delete(key)] returns 1, the entries afterwards are
    [pre ++ post] (the first match removed, the others kept in order), and the
    storage slot at the old final position holds only zero bytes; if no entry
    matches, [Delete(key)] returns 0 and the map is unchanged. *)
Theorem Delete_removes_first_match (mp : Map) (tr : list prim) (key : list byte) :
  wf_map mp = true -> length key = keySize mp -> bytes_ok key = true ->
  (forall pre e post,
     entries mp = pre ++ e :: post ->
     existsb (key_matches (keySize mp) key) pre = false ->
     key_matches (keySize mp) key e = true ->
     fst (Delete key (mkWorld mp tr)) = Ok 1
     /\ entries (wmap (snd (Delete key (mkWorld mp tr)))) = pre ++ post
     /\ nth (Len mp - 1) (backing (m (wmap (snd (Delete key (mkWorld mp tr)))))) []
        = repeat 0 (keySize mp + valSize mp))
  /\ (existsb (key_matches (keySize mp) key) (entries mp) = false ->
      fst (Delete key (mkWorld mp tr)) = Ok 0
      /\ wmap (snd (Delete key (mkWorld mp tr))) = mp).
Proof.
  intros Hwf Hk Hkb. destruct (wf_map_split mp Hwf) as [Hle _].
  pose proof (length_entries mp Hle) as Hlen.
  rewrite Delete_run by auto. split.
  - intros pre e post He Hpre Hm.
    assert (Hex : existsb (key_matches (keySize mp) key) (entries mp) = true)
      by (rewrite He; apply existsb_split; auto).
    pose proof (length_remove_first _ _ Hex) as Hr.
    rewrite Hex. cbn [fst snd wmap]. split; [reflexivity|].
    rewrite He, remove_first_split in Hr |- * by auto. rewrite He in Hlen. split.
    + unfold entries. cbn [m len backing].
      replace (len (m mp) - 1)%nat with (length (pre ++ post)) by lia.
      rewrite firstn_app, firstn_all, Nat.sub_diag, firstn_O, app_nil_r. reflexivity.
    + unfold Len. cbn [m backing].
      replace (len (m mp) - 1)%nat with (length (pre ++ post)) by lia.
      rewrite app_nth2, Nat.sub_diag by lia. reflexivity.
  - intros Hex. rewrite Hex. split; reflexivity.
Qed.

Lemma Delete_removes_first_match_witness :
  wf_map ex_map = true /\ length [165] = keySize ex_map /\ bytes_ok [165] = true
  /\ ((forall pre e post,
         entries ex_map = pre ++ e :: post ->
         existsb (key_matches (keySize ex_map) [165]) pre = false ->
         key_matches (keySize ex_map) [165] e = true ->
         fst (Delete [165] (mkWorld ex_map [])) = Ok 1
         /\ entries (wmap (snd (Delete [165] (mkWorld ex_map [])))) = pre ++ post
         /\ nth (Len ex_map - 1) (backing (m (wmap (snd (Delete [165] (mkWorld ex_map []))))))
              [] = repeat 0 (keySize ex_map + valSize ex_map))
      /\ (existsb (key_matches (keySize ex_map) [165]) (entries ex_map) = false ->
          fst (Delete [165] (mkWorld ex_map [])) = Ok 0
          /\ wmap (snd (Delete [165] (mkWorld ex_map []))) = ex_map)).
Proof.
  split; [reflexivity|]. split; [reflexivity|]. split; [reflexivity|].
  apply Delete_removes_first_match; reflexivity.
Defined.

(** C4: on a well-formed map, with [key] of length [keySize] and a buffer
    [val] of length [valSize]: [Contains(key)] returns 1 iff some entry's key
    region equals [key] (0 otherwise); [Lookup(key, val)] returns the same
    flag; and when the entries are [pre ++ e :: post] with [e] the first
    matching entry, [Lookup] returns 1 and the buffer then holds the value
    region of [e]. *)
Theorem Contains_Lookup_first_match (mp : Map) (tr : list prim) (key val : list byte) :
  wf_map mp = true -> length key = keySize mp -> bytes_ok key = true ->
  length val = valSize mp -> bytes_ok val = true ->
  fst (Contains key (mkWorld mp tr))
    = Ok (if existsb (key_matches (keySize mp) key) (entries mp) then 1 else 0)
  /\ (exists val', fst (Lookup key val (mkWorld mp tr))
        = Ok (if existsb (key_matches (keySize mp) key) (entries mp) then 1 else 0, val'))
  /\ (forall pre e post,
        entries mp = pre ++ e :: post ->
        existsb (key_matches (keySize mp) key) pre = false ->
        key_matches (keySize mp) key e = true ->
        fst (Lookup key val (mkWorld mp tr)) = Ok (1, skipn (keySize mp) e)).
Proof.
  intros Hwf Hk Hkb Hv Hvb.
  rewrite Contains_run, Lookup_run by auto. cbn [fst]. split; [|split].
  - destruct (existsb _ _); reflexivity.
  - rewrite existsb_find. destruct (find _ _) as [e|].
    + exists (skipn (keySize mp) e). reflexivity.
    + exists val. reflexivity.
  - intros pre e post He Hpre Hm. rewrite He, find_split by auto. reflexivity.
Qed.

Lemma Contains_Lookup_first_match_witness :
  wf_map ex_map = true /\ length [7] = keySize ex_map /\ bytes_ok [7] = true
  /\ length [0] = valSize ex_map /\ bytes_ok [0] = true
  /\ (fst (Contains [7] (mkWorld ex_map []))
        = Ok (if existsb (key_matches (keySize ex_map) [7]) (entries ex_map) then 1 else 0)
      /\ (exists val', fst (Lookup [7] [0] (mkWorld ex_map []))
            = Ok (if existsb (key_matches (keySize ex_map) [7]) (entries ex_map) then 1 else 0, val'))
      /\ (forall pre e post,
            entries ex_map = pre ++ e :: post ->
            existsb (key_matches (keySize ex_map) [7]) pre = false ->
            key_matches (keySize ex_map) [7] e = true ->
            fst (Lookup [7] [0] (mkWorld ex_map [])) = Ok (1, skipn (keySize ex_map) e))).
Proof.
  split; [reflexivity|]. split; [reflexivity|]. split; [reflexivity|].
  split; [reflexivity|]. split; [reflexivity|].
  apply Contains_Lookup_first_match; reflexivity.
Defined.

(** C5: for two well-formed maps with the same [Len], [keySize] and
    [valSize], and one valid call (every argument of its configured size),
    the call makes the same calls of the constant-time compare and copy
    primitives on both maps, in the same order: the same number of each,
    whatever the stored bytes and whichever entry matches. *)
Theorem primitive_counts_equal (growcap : nat -> nat -> nat) (mp1 mp2 : Map) (c : cmd) :
  wf_map mp1 = true -> wf_map mp2 = true -> Len mp1 = Len mp2 ->
  keySize mp1 = keySize mp2 -> valSize mp1 = valSize mp2 ->
  valid_cmd (keySize mp1) (valSize mp1) c = true ->
  prim_count CompareOp (trace (snd (exec_cmd growcap c (mkWorld mp1 []))))
    = prim_count CompareOp (trace (snd (exec_cmd growcap c (mkWorld mp2 []))))
  /\ prim_count CopyOp (trace (snd (exec_cmd growcap c (mkWorld mp1 []))))
     = prim_count CopyOp (trace (snd (exec_cmd growcap c (mkWorld mp2 []))))
  /\ trace (snd (exec_cmd growcap c (mkWorld mp1 [])))
     = trace (snd (exec_cmd growcap c (mkWorld mp2 []))).
Proof.
  intros Hwf1 Hwf2 Hl Hk Hv Hc.
  assert (Hc2 : valid_cmd (keySize mp2) (valSize mp2) c = true) by congruence.
  rewrite (exec_trace growcap mp1 [] c Hwf1 Hc), (exec_trace growcap mp2 [] c Hwf2 Hc2), Hl.
  auto.
Qed.

Lemma primitive_counts_equal_witness :
  wf_map ex_map = true /\ wf_map ex_map2 = true /\ Len ex_map = Len ex_map2
  /\ keySize ex_map = keySize ex_map2 /\ valSize ex_map = valSize ex_map2
  /\ valid_cmd (keySize ex_map) (valSize ex_map) (CDelete [165]) = true
  /\ (prim_count CompareOp (trace (snd (exec_cmd double_cap (CDelete [165]) (mkWorld ex_map []))))
        = prim_count CompareOp (trace (snd (exec_cmd double_cap (CDelete [165]) (mkWorld ex_map2 []))))
      /\ prim_count CopyOp (trace (snd (exec_cmd double_cap (CDelete [165]) (mkWorld ex_map []))))
         = prim_count CopyOp (trace (snd (exec_cmd double_cap (CDelete [165]) (mkWorld ex_map2 []))))
      /\ trace (snd (exec_cmd double_cap (CDelete [165]) (mkWorld ex_map [])))
         = trace (snd (exec_cmd double_cap (CDelete [165]) (mkWorld ex_map2 [])))).
Proof.
  split; [reflexivity|]. split; [reflexivity|]. split; [reflexivity|].
  split; [reflexivity|]. split; [reflexivity|]. split; [reflexivity|].
  apply primitive_counts_equal; reflexivity.
Defined.

(** C6: on a well-formed map, with [oldKey] and [newKey] of length [keySize]
    and [val] of length [valSize]: if the entries are [pre ++ e :: post] with
    [e] the first entry whose key region equals [oldKey] ([post] may hold more
    matching entries), [Replace(oldKey, newKey, val)] returns 1 and the entries
    become [pre ++ (newKey ++ val) :: post], and [Rename(oldKey, newKey)]
    returns 1 and the entries become [pre ++ (newKey ++ value of e) :: post]:
    every other entry is unchanged. *)
Theorem Replace_Rename_first_match (mp : Map) (tr : list prim) (oldKey newKey val : list byte)
    (pre : list entry) (e : entry) (post : list entry) :
  wf_map mp = true -> length oldKey = keySize mp -> bytes_ok oldKey = true ->
  length newKey = keySize mp -> bytes_ok newKey = true ->
  length val = valSize mp -> bytes_ok val = true ->
  entries mp = pre ++ e :: post ->
  existsb (key_matches (keySize mp) oldKey) pre = false ->
  key_matches (keySize mp) oldKey e = true ->
  (fst (Replace oldKey newKey val (mkWorld mp tr)) = Ok 1
   /\ entries (wmap (snd (Replace oldKey newKey val (mkWorld mp tr))))
      = pre ++ (newKey ++ val) :: post)
  /\ (fst (Rename oldKey newKey (mkWorld mp tr)) = Ok 1
      /\ entries (wmap (snd (Rename oldKey newKey (mkWorld mp tr))))
         = pre ++ (newKey ++ skipn (keySize mp) e) :: post).
Proof.
  intros Hwf Hk Hkb Hn Hnb Hv Hvb He Hpre Hm. destruct (wf_map_split mp Hwf) as [Hle _].
  pose proof (length_entries mp Hle) as Hlen.
  rewrite Replace_run, Rename_run by auto. cbn [fst snd wmap].
  rewrite !entries_with_entries by (rewrite length_update_first; auto).
  rewrite He, existsb_split, !update_first_split by auto. auto.
Qed.

Lemma Replace_Rename_first_match_witness :
  wf_map ex_map = true /\ length [165] = keySize ex_map /\ bytes_ok [165] = true
  /\ length [9] = keySize ex_map /\ bytes_ok [9] = true
  /\ length [9] = valSize ex_map /\ bytes_ok [9] = true
  /\ entries ex_map = [] ++ [165; 90] :: [[7; 8]; [165; 90]]
  /\ existsb (key_matches (keySize ex_map) [165]) [] = false
  /\ key_matches (keySize ex_map) [165] [165; 90] = true
  /\ ((fst (Replace [165] [9] [9] (mkWorld ex_map [])) = Ok 1
       /\ entries (wmap (snd (Replace [165] [9] [9] (mkWorld ex_map []))))
          = [] ++ ([9] ++ [9]) :: [[7; 8]; [165; 90]])
      /\ (fst (Rename [165] [9] (mkWorld ex_map [])) = Ok 1
          /\ entries (wmap (snd (Rename [165] [9] (mkWorld ex_map []))))
             = [] ++ ([9] ++ skipn (keySize ex_map) [165; 90]) :: [[7; 8]; [165; 90]])).
Proof.
  do 10 (split; [reflexivity|]).
  apply Replace_Rename_first_match; reflexivity.
Defined.

(** C7: from a map made by [New] or [NewWithCapacity], a sequence of valid
    calls runs without panicking and [Len()] afterwards equals the number of
    [Add] calls minus the number of [Delete] calls that returned 1; and on any
    well-formed map one valid call changes [Len()] by exactly [len_change]:
    +1 for [Add], -1 for a [Delete] that returned 1, 0 for every other call. *)
Theorem Len_counts_adds_deletes (growcap : nat -> nat -> nat) (ks vs capacity : nat)
    (mp0 : Map) (cs : list cmd) :
  (mp0 = New ks vs \/ mp0 = NewWithCapacity ks vs capacity) ->
  forallb (valid_cmd ks vs) cs = true ->
  (exists rs w, run_cmds growcap cs (mkWorld mp0 []) = (Ok rs, w)
     /\ Z.of_nat (Len (wmap w)) = Z.of_nat (adds cs) - Z.of_nat (deletes_ok cs rs))
  /\ (forall c mp tr, wf_map mp = true -> valid_cmd (keySize mp) (valSize mp) c = true ->
       exists r w, exec_cmd growcap c (mkWorld mp tr) = (Ok r, w)
         /\ Z.of_nat (Len (wmap w)) = Z.of_nat (Len mp) + len_change c r).
Proof.
  intros H0 Hcs. split.
  - assert (Hwf : wf_map mp0 = true /\ keySize mp0 = ks /\ valSize mp0 = vs /\ Len mp0 = O)
      by (destruct H0 as [-> | ->]; auto using wf_New, wf_NewWithCapacity).
    destruct Hwf as (Hwf & Hk & Hv & Hl). rewrite <- Hk, <- Hv in Hcs.
    destruct (run_valid growcap cs mp0 [] Hwf Hcs) as (rs & mp' & t & Hrun & _ & _ & _ & Hlen).
    exists rs, (mkWorld mp' ([] ++ t)). split; [exact Hrun|]. cbn [wmap]. rewrite Hlen, Hl. lia.
  - intros c mp tr Hwf Hc.
    destruct (exec_valid growcap mp tr c Hwf Hc) as (r & mp' & t & Hx & _ & _ & _ & Hlen).
    exists r, (mkWorld mp' (tr ++ t)). auto.
Qed.

Lemma Len_counts_adds_deletes_witness :
  (New 1 1 = New 1 1 \/ New 1 1 = NewWithCapacity 1 1 0)
  /\ forallb (valid_cmd 1 1) [CAdd [1] [2]; CAdd [3] [4]; CDelete [1]; CDelete [5]] = true
  /\ ((exists rs w, run_cmds double_cap [CAdd [1] [2]; CAdd [3] [4]; CDelete [1]; CDelete [5]]
                      (mkWorld (New 1 1) []) = (Ok rs, w)
         /\ Z.of_nat (Len (wmap w))
            = Z.of_nat (adds [CAdd [1] [2]; CAdd [3] [4]; CDelete [1]; CDelete [5]])
              - Z.of_nat (deletes_ok [CAdd [1] [2]; CAdd [3] [4]; CDelete [1]; CDelete [5]] rs))
      /\ (forall c mp tr, wf_map mp = true -> valid_cmd (keySize mp) (valSize mp) c = true ->
           exists r w, exec_cmd double_cap c (mkWorld mp tr) = (Ok r, w)
             /\ Z.of_nat (Len (wmap w)) = Z.of_nat (Len mp) + len_change c r)).
Proof.
  split; [left; reflexivity|]. split; [reflexivity|].
  apply (Len_counts_adds_deletes double_cap 1 1 0); [left; reflexivity | reflexivity].
Defined.

(** C8: for every call whose arguments include one of the wrong length, the
    call panics with ["<name> has invalid size"], where <name> is the first
    such argument in parameter order ([key], [val], [oldKey] or [newKey]),
    and the map (and the log of primitive calls) is exactly as before. *)
Theorem invalid_size_panics (growcap : nat -> nat -> nat) (mp : Map) (tr : list prim) (c : cmd)
    (a : string) (rest : list string) :
  bad_args (keySize mp) (valSize mp) c = a :: rest ->
  exec_cmd growcap c (mkWorld mp tr) = (Panic (a ++ " has invalid size"), mkWorld mp tr).
Proof.
  intros H. unfold bad_args in H.
  destruct c; cbv beta iota delta [exec_cmd fmap bind get_map Add Set_ Replace Rename Contains
                                   Lookup Delete]; cbn [wmap];
    repeat match goal with
           | H : context [Nat.eqb ?a ?b] |- _ => destruct (Nat.eqb_spec a b)
           end;
    cbn in H; try discriminate H; injection H as <- _; reflexivity.
Qed.

Lemma invalid_size_panics_witness :
  bad_args (keySize ex_map) (valSize ex_map) (CReplace [165] [1; 2] [3]) = "newKey"%string :: []
  /\ exec_cmd double_cap (CReplace [165] [1; 2] [3]) (mkWorld ex_map [])
     = (Panic ("newKey" ++ " has invalid size"), mkWorld ex_map []).
Proof.
  split; [reflexivity|]. apply invalid_size_panics with []. reflexivity.
Defined.

(** C9: on a well-formed map, with [key] of length [keySize] and a buffer
    [val] of length [valSize], if [Lookup(key, val)] returns 0 then the
    buffer afterwards is exactly [val]. *)
Theorem Lookup_miss_keeps_val (mp : Map) (tr : list prim) (key val val' : list byte) :
  wf_map mp = true -> length key = keySize mp -> bytes_ok key = true ->
  length val = valSize mp -> bytes_ok val = true ->
  fst (Lookup key val (mkWorld mp tr)) = Ok (0, val') -> val' = val.
Proof.
  intros Hwf Hk Hkb Hv Hvb. rewrite Lookup_run by auto. cbn [fst].
  destruct (find _ _); intros H; injection H; [discriminate|auto].
Qed.

Lemma Lookup_miss_keeps_val_witness :
  wf_map ex_map = true /\ length [42] = keySize ex_map /\ bytes_ok [42] = true
  /\ length [5] = valSize ex_map /\ bytes_ok [5] = true
  /\ fst (Lookup [42] [5] (mkWorld ex_map [])) = Ok (0, [5])
  /\ [5] = [5].
Proof.
  do 6 (split; [reflexivity|]).
  apply (Lookup_miss_keeps_val ex_map [] [42] [5] [5]); reflexivity.
Defined.

(** C10: on a well-formed map with [keySize = 0], every entry's key region
    equals the empty key (the constant-time comparison gives 1 for each), so
    [Contains] of the empty key returns 1 iff [Len() > 0]. *)
Theorem empty_key_matches_all (mp : Map) (tr : list prim) :
  wf_map mp = true -> keySize mp = O ->
  fst (Contains [] (mkWorld mp tr)) = Ok (if Nat.ltb 0 (Len mp) then 1 else 0)
  /\ (forall e, In e (entries mp) ->
        key_matches (keySize mp) [] e = true /\ ct_compare (firstn (keySize mp) e) [] = 1).
Proof.
  intros Hwf Hk. destruct (wf_map_split mp Hwf) as [Hle _].
  pose proof (length_entries mp Hle) as Hlen.
  rewrite Contains_run by (auto; rewrite Hk; reflexivity). cbn [fst]. rewrite Hk. split.
  - unfold Len. rewrite <- Hlen. destruct (entries mp); reflexivity.
  - intros e _. split; reflexivity.
Qed.

Lemma empty_key_matches_all_witness :
  wf_map key0_map = true /\ keySize key0_map = O
  /\ (fst (Contains [] (mkWorld key0_map [])) = Ok (if Nat.ltb 0 (Len key0_map) then 1 else 0)
      /\ (forall e, In e (entries key0_map) ->
            key_matches (keySize key0_map) [] e = true
            /\ ct_compare (firstn (keySize key0_map) e) [] = 1)).
Proof.
  split; [reflexivity|]. split; [reflexivity|].
  apply empty_key_matches_all; reflexivity.
Defined.

(** * Further properties of the code *)

(** [Add] on a well-formed map with arguments of the configured sizes
    succeeds, appends the entry [key ++ val] after the stored entries, makes
    no primitive call, and keeps the map well-formed. *)
Theorem Add_appends_entry (growcap : nat -> nat -> nat) (mp : Map) (tr : list prim)
    (key val : list byte) :
  wf_map mp = true -> length key = keySize mp -> bytes_ok key = true ->
  length val = valSize mp -> bytes_ok val = true ->
  fst (Add growcap key val (mkWorld mp tr)) = Ok tt
  /\ entries (wmap (snd (Add growcap key val (mkWorld mp tr)))) = entries mp ++ [key ++ val]
  /\ trace (snd (Add growcap key val (mkWorld mp tr))) = tr
  /\ wf_map (wmap (snd (Add growcap key val (mkWorld mp tr)))) = true.
Proof.
  intros Hwf Hk Hkb Hv Hvb.
  destruct (Add_result growcap mp tr key val Hwf Hk Hkb Hv Hvb) as (mp' & H & Hwf' & He & _).
  rewrite H. cbn [fst snd wmap trace]. auto.
Qed.

Lemma Add_appends_entry_witness :
  wf_map ex_map = true /\ length [4] = keySize ex_map /\ bytes_ok [4] = true
  /\ length [4] = valSize ex_map /\ bytes_ok [4] = true
  /\ (fst (Add double_cap [4] [4] (mkWorld ex_map [])) = Ok tt
      /\ entries (wmap (snd (Add double_cap [4] [4] (mkWorld ex_map [])))) = entries ex_map ++ [[4] ++ [4]]
      /\ trace (snd (Add double_cap [4] [4] (mkWorld ex_map []))) = []
      /\ wf_map (wmap (snd (Add double_cap [4] [4] (mkWorld ex_map [])))) = true).
Proof.
  do 5 (split; [reflexivity|]).
  apply Add_appends_entry; reflexivity.
Defined.

(** After a valid [Add(key, val)] of a key the map did not hold,
    [Lookup(key, buf)] returns 1 with [val] in the buffer and [Contains(key)]
    returns 1. *)
Theorem Add_then_Lookup (growcap : nat -> nat -> nat) (mp : Map) (tr : list prim)
    (key val buf : list byte) :
  wf_map mp = true -> length key = keySize mp -> bytes_ok key = true ->
  length val = valSize mp -> bytes_ok val = true ->
  length buf = valSize mp -> bytes_ok buf = true ->
  existsb (key_matches (keySize mp) key) (entries mp) = false ->
  fst (Lookup key buf (snd (Add growcap key val (mkWorld mp tr)))) = Ok (1, val)
  /\ fst (Contains key (snd (Add growcap key val (mkWorld mp tr)))) = Ok 1.
Proof.
  intros Hwf Hk Hkb Hv Hvb Hb Hbb Hex.
  destruct (Add_result growcap mp tr key val Hwf Hk Hkb Hv Hvb)
    as (mp' & H & Hwf' & He & Hk' & Hv' & _).
  rewrite H. cbn [snd].
  rewrite Lookup_run, Contains_run by (rewrite ?Hk', ?Hv'; auto). cbn [fst].
  rewrite He, Hk'. split.
  - rewrite find_split by (auto; apply key_matches_app; auto).
    rewrite skipn_key by auto. reflexivity.
  - rewrite existsb_split by (apply key_matches_app; auto). reflexivity.
Qed.

Lemma Add_then_Lookup_witness :
  wf_map ex_map = true /\ length [4] = keySize ex_map /\ bytes_ok [4] = true
  /\ length [5] = valSize ex_map /\ bytes_ok [5] = true
  /\ length [0] = valSize ex_map /\ bytes_ok [0] = true
  /\ existsb (key_matches (keySize ex_map) [4]) (entries ex_map) = false
  /\ (fst (Lookup [4] [0] (snd (Add double_cap [4] [5] (mkWorld ex_map [])))) = Ok (1, [5])
      /\ fst (Contains [4] (snd (Add double_cap [4] [5] (mkWorld ex_map [])))) = Ok 1).
Proof.
  do 8 (split; [reflexivity|]).
  apply Add_then_Lookup; reflexivity.
Defined.

(** A valid [Add(key, val)] of a key the map did not hold, followed by
    [Delete(key)], returns 1 and gives back the entries of the map before
    the [Add]. *)
Theorem Add_then_Delete (growcap : nat -> nat -> nat) (mp : Map) (tr : list prim)
    (key val : list byte) :
  wf_map mp = true -> length key = keySize mp -> bytes_ok key = true ->
  length val = valSize mp -> bytes_ok val = true ->
  existsb (key_matches (keySize mp) key) (entries mp) = false ->
  fst (Delete key (snd (Add growcap key val (mkWorld mp tr)))) = Ok 1
  /\ entries (wmap (snd (Delete key (snd (Add growcap key val (mkWorld mp tr)))))) = entries mp.
Proof.
  intros Hwf Hk Hkb Hv Hvb Hex.
  destruct (Add_result growcap mp tr key val Hwf Hk Hkb Hv Hvb)
    as (mp' & H & Hwf' & He & Hk' & Hv' & _).
  rewrite H. cbn [snd].
  assert (Hex' : existsb (key_matches (keySize mp') key) (entries mp') = true)
    by (rewrite He, Hk'; apply existsb_split, key_matches_app; auto).
  destruct (Delete_found mp' tr key Hwf' ltac:(congruence) Hkb Hex')
    as (mp2 & t & HD & _ & He2 & _).
  rewrite HD. cbn [fst snd wmap]. split; [reflexivity|].
  rewrite He2, He, Hk', remove_first_app by auto. cbn [remove_first].
  rewrite key_matches_app by auto. apply app_nil_r.
Qed.

Lemma Add_then_Delete_witness :
  wf_map ex_map = true /\ length [4] = keySize ex_map /\ bytes_ok [4] = true
  /\ length [5] = valSize ex_map /\ bytes_ok [5] = true
  /\ existsb (key_matches (keySize ex_map) [4]) (entries ex_map) = false
  /\ (fst (Delete [4] (snd (Add double_cap [4] [5] (mkWorld ex_map [])))) = Ok 1
      /\ entries (wmap (snd (Delete [4] (snd (Add double_cap [4] [5] (mkWorld ex_map []))))))
         = entries ex_map).
Proof.
  do 6 (split; [reflexivity|]).
  apply Add_then_Delete; reflexivity.
Defined.

(** After a valid [Set(key, val)] that returned 1, [Lookup(key, buf)]
    returns 1 with [val] in the buffer. *)
Theorem Set_then_Lookup (mp : Map) (tr : list prim) (key val buf : list byte) :
  wf_map mp = true -> length key = keySize mp -> bytes_ok key = true ->
  length val = valSize mp -> bytes_ok val = true ->
  length buf = valSize mp -> bytes_ok buf = true ->
  fst (Set_ key val (mkWorld mp tr)) = Ok 1 ->
  fst (Lookup key buf (snd (Set_ key val (mkWorld mp tr)))) = Ok (1, val).
Proof.
  intros Hwf Hk Hkb Hv Hvb Hb Hbb. destruct (wf_map_split mp Hwf) as [Hle _].
  rewrite Set_run by auto. cbn [fst snd].
  destruct (existsb (key_matches (keySize mp) key) (entries mp)) eqn:Hex; [|discriminate].
  intros _.
  rewrite Lookup_run by (try apply wf_Set_map; cbn [keySize valSize with_entries]; auto).
  cbn [fst keySize with_entries].
  rewrite entries_with_entries by (rewrite length_map; apply length_entries; auto).
  destruct (first_match _ _ Hex) as (pre & e & post & He & Hpre & Hm).
  rewrite He, map_app, map_no_match by auto. cbn [map]. rewrite Hm.
  rewrite (key_matches_eq _ _ _ Hm).
  rewrite find_split by (auto; apply key_matches_app; auto).
  rewrite skipn_key by auto. reflexivity.
Qed.

Lemma Set_then_Lookup_witness :
  wf_map dup_map = true /\ length [165] = keySize dup_map /\ bytes_ok [165] = true
  /\ length [255] = valSize dup_map /\ bytes_ok [255] = true
  /\ length [0] = valSize dup_map /\ bytes_ok [0] = true
  /\ fst (Set_ [165] [255] (mkWorld dup_map [])) = Ok 1
  /\ fst (Lookup [165] [0] (snd (Set_ [165] [255] (mkWorld dup_map [])))) = Ok (1, [255]).
Proof.
  do 8 (split; [reflexivity|]).
  apply Set_then_Lookup; reflexivity.
Defined.

(** Two valid calls [Set(key, v1)] then [Set(key, v2)] leave the map as
    [Set(key, v2)] alone does, and the second returns what [Set(key, v2)]
    alone returns. *)
Theorem Set_twice (mp : Map) (tr : list prim) (key v1 v2 : list byte) :
  wf_map mp = true -> length key = keySize mp -> bytes_ok key = true ->
  length v1 = valSize mp -> bytes_ok v1 = true ->
  length v2 = valSize mp -> bytes_ok v2 = true ->
  fst (Set_ key v2 (snd (Set_ key v1 (mkWorld mp tr)))) = fst (Set_ key v2 (mkWorld mp tr))
  /\ wmap (snd (Set_ key v2 (snd (Set_ key v1 (mkWorld mp tr)))))
     = wmap (snd (Set_ key v2 (mkWorld mp tr))).
Proof.
  intros Hwf Hk Hkb Hv1 Hvb1 Hv2 Hvb2. destruct (wf_map_split mp Hwf) as [Hle Hall].
  pose proof (length_entries mp Hle) as Hlen.
  rewrite (Set_run mp tr key v2) by auto.
  rewrite (Set_run mp tr key v1) by auto. cbn [snd].
  rewrite Set_run by (try apply wf_Set_map; cbn [keySize valSize with_entries]; auto).
  cbn [fst snd wmap keySize valSize with_entries].
  rewrite entries_with_entries by (rewrite length_map; auto).
  rewrite (existsb_set_map _ (valSize mp)) by auto.
  rewrite (set_map_twice _ (valSize mp)) by auto.
  rewrite with_entries_twice by (rewrite length_map; auto). auto.
Qed.

Lemma Set_twice_witness :
  wf_map dup_map = true /\ length [165] = keySize dup_map /\ bytes_ok [165] = true
  /\ length [1] = valSize dup_map /\ bytes_ok [1] = true
  /\ length [2] = valSize dup_map /\ bytes_ok [2] = true
  /\ (fst (Set_ [165] [2] (snd (Set_ [165] [1] (mkWorld dup_map []))))
        = fst (Set_ [165] [2] (mkWorld dup_map []))
      /\ wmap (snd (Set_ [165] [2] (snd (Set_ [165] [1] (mkWorld dup_map [])))))
         = wmap (snd (Set_ [165] [2] (mkWorld dup_map [])))).
Proof.
  do 7 (split; [reflexivity|]).
  apply Set_twice; reflexivity.
Defined.

(** When no entry's key region equals [key], the valid calls [Set(key, val)],
    [Replace(key, newKey, val)] and [Rename(key, newKey)] each return 0 and
    leave the map unchanged. *)
Theorem no_match_leaves_map (mp : Map) (tr : list prim) (key newKey val : list byte) :
  wf_map mp = true -> length key = keySize mp -> bytes_ok key = true ->
  length newKey = keySize mp -> bytes_ok newKey = true ->
  length val = valSize mp -> bytes_ok val = true ->
  existsb (key_matches (keySize mp) key) (entries mp) = false ->
  (fst (Set_ key val (mkWorld mp tr)) = Ok 0 /\ wmap (snd (Set_ key val (mkWorld mp tr))) = mp)
  /\ (fst (Replace key newKey val (mkWorld mp tr)) = Ok 0
      /\ wmap (snd (Replace key newKey val (mkWorld mp tr))) = mp)
  /\ (fst (Rename key newKey (mkWorld mp tr)) = Ok 0
      /\ wmap (snd (Rename key newKey (mkWorld mp tr))) = mp).
Proof.
  intros Hwf Hk Hkb Hn Hnb Hv Hvb Hex.
  rewrite Set_run, Replace_run, Rename_run by auto. cbn [fst snd wmap].
  rewrite Hex, map_no_match, !update_first_no_match, with_entries_self by auto.
  repeat split.
Qed.

Lemma no_match_leaves_map_witness :
  wf_map ex_map = true /\ length [42] = keySize ex_map /\ bytes_ok [42] = true
  /\ length [1] = keySize ex_map /\ bytes_ok [1] = true
  /\ length [2] = valSize ex_map /\ bytes_ok [2] = true
  /\ existsb (key_matches (keySize ex_map) [42]) (entries ex_map) = false
  /\ ((fst (Set_ [42] [2] (mkWorld ex_map [])) = Ok 0
       /\ wmap (snd (Set_ [42] [2] (mkWorld ex_map []))) = ex_map)
      /\ (fst (Replace [42] [1] [2] (mkWorld ex_map [])) = Ok 0
          /\ wmap (snd (Replace [42] [1] [2] (mkWorld ex_map []))) = ex_map)
      /\ (fst (Rename [42] [1] (mkWorld ex_map [])) = Ok 0
          /\ wmap (snd (Rename [42] [1] (mkWorld ex_map []))) = ex_map)).
Proof.
  do 8 (split; [reflexivity|]).
  apply no_match_leaves_map; reflexivity.
Defined.

(** Valid calls of [Contains] and [Lookup] never change the map. *)
Theorem Contains_Lookup_read_only (mp : Map) (tr : list prim) (key val : list byte) :
  wf_map mp = true -> length key = keySize mp -> bytes_ok key = true ->
  length val = valSize mp -> bytes_ok val = true ->
  wmap (snd (Contains key (mkWorld mp tr))) = mp
  /\ wmap (snd (Lookup key val (mkWorld mp tr))) = mp.
Proof.
  intros Hwf Hk Hkb Hv Hvb. rewrite Contains_run, Lookup_run by auto. auto.
Qed.

Lemma Contains_Lookup_read_only_witness :
  wf_map ex_map = true /\ length [165] = keySize ex_map /\ bytes_ok [165] = true
  /\ length [0] = valSize ex_map /\ bytes_ok [0] = true
  /\ (wmap (snd (Contains [165] (mkWorld ex_map []))) = ex_map
      /\ wmap (snd (Lookup [165] [0] (mkWorld ex_map []))) = ex_map).
Proof.
  do 5 (split; [reflexivity|]).
  apply Contains_Lookup_read_only; reflexivity.
Defined.

(** After a valid [Replace(oldKey, newKey, val)] whose first match [e] comes
    after no entry with key [newKey], [Lookup(newKey, buf)] returns 1 with
    [val] in the buffer. *)
Theorem Replace_then_Lookup (mp : Map) (tr : list prim) (oldKey newKey val buf : list byte)
    (pre : list entry) (e : entry) (post : list entry) :
  wf_map mp = true -> length oldKey = keySize mp -> bytes_ok oldKey = true ->
  length newKey = keySize mp -> bytes_ok newKey = true ->
  length val = valSize mp -> bytes_ok val = true ->
  length buf = valSize mp -> bytes_ok buf = true ->
  entries mp = pre ++ e :: post ->
  existsb (key_matches (keySize mp) oldKey) pre = false ->
  key_matches (keySize mp) oldKey e = true ->
  existsb (key_matches (keySize mp) newKey) pre = false ->
  fst (Lookup newKey buf (snd (Replace oldKey newKey val (mkWorld mp tr)))) = Ok (1, val).
Proof.
  intros Hwf Hk Hkb Hn Hnb Hv Hvb Hb Hbb He Hpre Hm Hpre'.
  destruct (wf_map_split mp Hwf) as [Hle _]. pose proof (length_entries mp Hle) as Hlen.
  rewrite Replace_run by auto. cbn [snd].
  rewrite Lookup_run.
  2: { apply wf_update_first_map; auto. intros. apply wf_entry_app; auto. }
  all: cbn [keySize valSize with_entries]; auto.
  cbn [fst keySize with_entries].
  rewrite entries_with_entries by (rewrite length_update_first; auto).
  rewrite He, update_first_split by auto.
  rewrite find_split by (auto; apply key_matches_app; auto).
  rewrite skipn_key by auto. reflexivity.
Qed.

Lemma Replace_then_Lookup_witness :
  wf_map ex_map = true /\ length [165] = keySize ex_map /\ bytes_ok [165] = true
  /\ length [9] = keySize ex_map /\ bytes_ok [9] = true
  /\ length [9] = valSize ex_map /\ bytes_ok [9] = true
  /\ length [0] = valSize ex_map /\ bytes_ok [0] = true
  /\ entries ex_map = [] ++ [165; 90] :: [[7; 8]; [165; 90]]
  /\ existsb (key_matches (keySize ex_map) [165]) [] = false
  /\ key_matches (keySize ex_map) [165] [165; 90] = true
  /\ existsb (key_matches (keySize ex_map) [9]) [] = false
  /\ fst (Lookup [9] [0] (snd (Replace [165] [9] [9] (mkWorld ex_map [])))) = Ok (1, [9]).
Proof.
  do 13 (split; [reflexivity|]).
  apply (Replace_then_Lookup ex_map [] [165] [9] [9] [0] [] [165; 90] [[7; 8]; [165; 90]]);
    reflexivity.
Defined.

(** After a valid [Rename(oldKey, newKey)] whose first match [e] comes after
    no entry with key [newKey], [Lookup(newKey, buf)] returns 1 with the
    value region of [e] in the buffer: the value moved with the key. *)
Theorem Rename_then_Lookup (mp : Map) (tr : list prim) (oldKey newKey buf : list byte)
    (pre : list entry) (e : entry) (post : list entry) :
  wf_map mp = true -> length oldKey = keySize mp -> bytes_ok oldKey = true ->
  length newKey = keySize mp -> bytes_ok newKey = true ->
  length buf = valSize mp -> bytes_ok buf = true ->
  entries mp = pre ++ e :: post ->
  existsb (key_matches (keySize mp) oldKey) pre = false ->
  key_matches (keySize mp) oldKey e = true ->
  existsb (key_matches (keySize mp) newKey) pre = false ->
  fst (Lookup newKey buf (snd (Rename oldKey newKey (mkWorld mp tr))))
  = Ok (1, skipn (keySize mp) e).
Proof.
  intros Hwf Hk Hkb Hn Hnb Hb Hbb He Hpre Hm Hpre'.
  destruct (wf_map_split mp Hwf) as [Hle _]. pose proof (length_entries mp Hle) as Hlen.
  rewrite Rename_run by auto. cbn [snd].
  rewrite Lookup_run.
  2: { apply wf_update_first_map; auto. intros. apply wf_entry_rename; auto. }
  all: cbn [keySize valSize with_entries]; auto.
  cbn [fst keySize with_entries].
  rewrite entries_with_entries by (rewrite length_update_first; auto).
  rewrite He, update_first_split by auto.
  rewrite find_split by (auto; apply key_matches_app; auto).
  rewrite skipn_key by auto. reflexivity.
Qed.

Lemma Rename_then_Lookup_witness :
  wf_map ex_map = true /\ length [165] = keySize ex_map /\ bytes_ok [165] = true
  /\ length [9] = keySize ex_map /\ bytes_ok [9] = true
  /\ length [0] = valSize ex_map /\ bytes_ok [0] = true
  /\ entries ex_map = [] ++ [165; 90] :: [[7; 8]; [165; 90]]
  /\ existsb (key_matches (keySize ex_map) [165]) [] = false
  /\ key_matches (keySize ex_map) [165] [165; 90] = true
  /\ existsb (key_matches (keySize ex_map) [9]) [] = false
  /\ fst (Lookup [9] [0] (snd (Rename [165] [9] (mkWorld ex_map []))))
     = Ok (1, skipn (keySize ex_map) [165; 90]).
Proof.
  do 11 (split; [reflexivity|]).
  apply (Rename_then_Lookup ex_map [] [165] [9] [0] [] [165; 90] [[7; 8]; [165; 90]]);
    reflexivity.
Defined.

(** On a map with no entries, every valid call of [Set], [Replace],
    [Rename], [Contains], [Lookup] and [Delete] returns 0 ([Lookup] leaves the
    buffer as it is), changes nothing and makes no primitive call. *)
Theorem empty_map_calls (mp : Map) (tr : list prim) (key newKey val : list byte) :
  Len mp = O -> length key = keySize mp -> bytes_ok key = true ->
  length newKey = keySize mp -> bytes_ok newKey = true ->
  length val = valSize mp -> bytes_ok val = true ->
  Set_ key val (mkWorld mp tr) = (Ok 0, mkWorld mp tr)
  /\ Replace key newKey val (mkWorld mp tr) = (Ok 0, mkWorld mp tr)
  /\ Rename key newKey (mkWorld mp tr) = (Ok 0, mkWorld mp tr)
  /\ Contains key (mkWorld mp tr) = (Ok 0, mkWorld mp tr)
  /\ Lookup key val (mkWorld mp tr) = (Ok (0, val), mkWorld mp tr)
  /\ Delete key (mkWorld mp tr) = (Ok 0, mkWorld mp tr).
Proof.
  unfold Len. intros H0 Hk Hkb Hn Hnb Hv Hvb. pose proof (wf_empty mp H0) as Hwf.
  assert (He : entries mp = []) by (unfold entries; rewrite H0; reflexivity).
  rewrite Set_run, Replace_run, Rename_run, Contains_run, Lookup_run, Delete_run by auto.
  rewrite He, H0. cbn [map update_first existsb find repeat concat delete_trace].
  rewrite !with_entries_nil, !app_nil_r by exact H0.
  repeat split; reflexivity.
Qed.

Lemma empty_map_calls_witness :
  Len (NewWithCapacity 1 1 2) = O
  /\ length [1] = keySize (NewWithCapacity 1 1 2) /\ bytes_ok [1] = true
  /\ length [2] = keySize (NewWithCapacity 1 1 2) /\ bytes_ok [2] = true
  /\ length [3] = valSize (NewWithCapacity 1 1 2) /\ bytes_ok [3] = true
  /\ (Set_ [1] [3] (mkWorld (NewWithCapacity 1 1 2) [])
        = (Ok 0, mkWorld (NewWithCapacity 1 1 2) [])
      /\ Replace [1] [2] [3] (mkWorld (NewWithCapacity 1 1 2) [])
         = (Ok 0, mkWorld (NewWithCapacity 1 1 2) [])
      /\ Rename [1] [2] (mkWorld (NewWithCapacity 1 1 2) [])
         = (Ok 0, mkWorld (NewWithCapacity 1 1 2) [])
      /\ Contains [1] (mkWorld (NewWithCapacity 1 1 2) [])
         = (Ok 0, mkWorld (NewWithCapacity 1 1 2) [])
      /\ Lookup [1] [3] (mkWorld (NewWithCapacity 1 1 2) [])
         = (Ok (0, [3]), mkWorld (NewWithCapacity 1 1 2) [])
      /\ Delete [1] (mkWorld (NewWithCapacity 1 1 2) [])
         = (Ok 0, mkWorld (NewWithCapacity 1 1 2) [])).
Proof.
  do 7 (split; [reflexivity|]).
  apply empty_map_calls; reflexivity.
Defined.

(** When exactly one entry's key region equals [key], a valid [Delete(key)]
    returns 1 and afterwards [Contains(key)] returns 0. *)
Theorem Delete_unique_then_Contains (mp : Map) (tr : list prim) (key : list byte)
    (pre : list entry) (e : entry) (post : list entry) :
  wf_map mp = true -> length key = keySize mp -> bytes_ok key = true ->
  entries mp = pre ++ e :: post ->
  key_matches (keySize mp) key e = true ->
  existsb (key_matches (keySize mp) key) pre = false ->
  existsb (key_matches (keySize mp) key) post = false ->
  fst (Delete key (mkWorld mp tr)) = Ok 1
  /\ fst (Contains key (snd (Delete key (mkWorld mp tr)))) = Ok 0.
Proof.
  intros Hwf Hk Hkb He Hm Hpre Hpost.
  assert (Hex : existsb (key_matches (keySize mp) key) (entries mp) = true)
    by (rewrite He; apply existsb_split; auto).
  destruct (Delete_found mp tr key Hwf Hk Hkb Hex) as (mp' & t & HD & Hwf' & He' & Hk' & _).
  rewrite HD. cbn [fst snd]. split; [reflexivity|].
  rewrite Contains_run by (rewrite ?Hk'; auto). cbn [fst].
  rewrite He', He, Hk', remove_first_split, existsb_app, Hpre, Hpost by auto. reflexivity.
Qed.

Lemma Delete_unique_then_Contains_witness :
  wf_map ex_map = true /\ length [7] = keySize ex_map /\ bytes_ok [7] = true
  /\ entries ex_map = [[165; 90]] ++ [7; 8] :: [[165; 90]]
  /\ key_matches (keySize ex_map) [7] [7; 8] = true
  /\ existsb (key_matches (keySize ex_map) [7]) [[165; 90]] = false
  /\ existsb (key_matches (keySize ex_map) [7]) [[165; 90]] = false
  /\ (fst (Delete [7] (mkWorld ex_map [])) = Ok 1
      /\ fst (Contains [7] (snd (Delete [7] (mkWorld ex_map [])))) = Ok 0).
Proof.
  do 7 (split; [reflexivity|]).
  apply (Delete_unique_then_Contains ex_map [] [7] [[165; 90]] [7; 8] [[165; 90]]);
    reflexivity.
Defined.

(** From a map made by [New] or [NewWithCapacity], after any sequence of
    valid calls, the length is at most the capacity and every stored entry
    has exactly [keySize + valSize] bytes. *)
Theorem entry_sizes_invariant (growcap : nat -> nat -> nat) (ks vs capacity : nat)
    (mp0 : Map) (cs : list cmd) :
  (mp0 = New ks vs \/ mp0 = NewWithCapacity ks vs capacity) ->
  forallb (valid_cmd ks vs) cs = true ->
  exists rs w, run_cmds growcap cs (mkWorld mp0 []) = (Ok rs, w)
    /\ (Len (wmap w) <= cap (m (wmap w)))%nat
    /\ keySize (wmap w) = ks /\ valSize (wmap w) = vs
    /\ (forall e, In e (entries (wmap w)) -> length e = (ks + vs)%nat).
Proof.
  intros H0 Hcs.
  assert (Hwf : wf_map mp0 = true /\ keySize mp0 = ks /\ valSize mp0 = vs)
    by (destruct H0 as [-> | ->]; auto using wf_New, wf_NewWithCapacity).
  destruct Hwf as (Hwf & Hk & Hv). rewrite <- Hk, <- Hv in Hcs.
  destruct (run_valid growcap cs mp0 [] Hwf Hcs) as (rs & mp' & t & Hrun & Hwf' & Hk' & Hv' & _).
  exists rs, (mkWorld mp' ([] ++ t)). split; [exact Hrun|]. cbn [wmap].
  destruct (wf_map_split mp' Hwf') as [Hle Hall].
  split; [exact Hle|]. split; [congruence|]. split; [congruence|].
  intros e Hin. rewrite forallb_forall in Hall. specialize (Hall e Hin).
  destruct (wf_entry_lengths _ _ _ Hall) as (Hl & _). congruence.
Qed.

Lemma entry_sizes_invariant_witness :
  (New 1 1 = New 1 1 \/ New 1 1 = NewWithCapacity 1 1 0)
  /\ forallb (valid_cmd 1 1) [CAdd [1] [2]; CSet [1] [7]; CAdd [3] [4]; CDelete [1]] = true
  /\ (exists rs w, run_cmds double_cap [CAdd [1] [2]; CSet [1] [7]; CAdd [3] [4]; CDelete [1]]
                     (mkWorld (New 1 1) []) = (Ok rs, w)
        /\ (Len (wmap w) <= cap (m (wmap w)))%nat
        /\ keySize (wmap w) = 1%nat /\ valSize (wmap w) = 1%nat
        /\ (forall e, In e (entries (wmap w)) -> length e = (1 + 1)%nat)).
Proof.
  split; [left; reflexivity|]. split; [reflexivity|].
  apply (entry_sizes_invariant double_cap 1 1 0); [left; reflexivity | reflexivity].
Defined.

(** A valid call on a well-formed map never lowers the capacity of the
    backing storage, and only an [Add] on a map whose length equals its
    capacity changes it. *)
Theorem capacity_never_shrinks (growcap : nat -> nat -> nat) (mp : Map) (tr : list prim) (c : cmd) :
  wf_map mp = true -> valid_cmd (keySize mp) (valSize mp) c = true ->
  (cap (m mp) <= cap (m (wmap (snd (exec_cmd growcap c (mkWorld mp tr))))))%nat
  /\ (match c with CAdd _ _ => (Len mp < cap (m mp))%nat | _ => True end ->
      cap (m (wmap (snd (exec_cmd growcap c (mkWorld mp tr))))) = cap (m mp)).
Proof. intros Hwf Hc. apply exec_cap; auto. Qed.

Lemma capacity_never_shrinks_witness :
  wf_map one_map = true /\ valid_cmd (keySize one_map) (valSize one_map) (CAdd [2%Z] []) = true
  /\ ((cap (m one_map) <= cap (m (wmap (snd (exec_cmd double_cap (CAdd [2%Z] []) (mkWorld one_map []))))))%nat
      /\ (match CAdd [2] [] with CAdd _ _ => (Len one_map < cap (m one_map))%nat | _ => True end ->
          cap (m (wmap (snd (exec_cmd double_cap (CAdd [2%Z] []) (mkWorld one_map []))))) = cap (m one_map))).
Proof.
  split; [reflexivity|]. split; [reflexivity|].
  apply capacity_never_shrinks; reflexivity.
Defined.

(** A map made by [NewWithCapacity(ks, vs, capacity)] never reallocates its
    backing storage during a sequence of valid calls with at most [capacity]
    calls of [Add] (whatever [Delete] calls are among them): the capacity
    stays [capacity]. *)
Theorem NewWithCapacity_no_realloc (growcap : nat -> nat -> nat) (ks vs capacity : nat)
    (cs : list cmd) :
  forallb (valid_cmd ks vs) cs = true -> (adds cs <= capacity)%nat ->
  exists rs w, run_cmds growcap cs (mkWorld (NewWithCapacity ks vs capacity) []) = (Ok rs, w)
    /\ cap (m (wmap w)) = capacity.
Proof.
  intros Hcs Hadds.
  destruct (run_cap growcap cs (NewWithCapacity ks vs capacity) []
              (wf_NewWithCapacity ks vs capacity) Hcs)
    as (rs & mp' & t & Hrun & Hcap).
  { unfold Len, cap. cbn. rewrite repeat_length. lia. }
  exists rs, (mkWorld mp' ([] ++ t)). split; [exact Hrun|]. cbn [wmap].
  rewrite Hcap. unfold cap. cbn. apply repeat_length.
Qed.

Lemma NewWithCapacity_no_realloc_witness :
  forallb (valid_cmd 1 1) [CAdd [1] [2]; CAdd [3] [4]; CDelete [1]; CAdd [5] [6]] = true
  /\ le (adds [CAdd [1] [2]; CAdd [3] [4]; CDelete [1]; CAdd [5] [6]]) 3
  /\ (exists rs w, run_cmds double_cap [CAdd [1] [2]; CAdd [3] [4]; CDelete [1]; CAdd [5] [6]]
                     (mkWorld (NewWithCapacity 1 1 3) []) = (Ok rs, w)
        /\ cap (m (wmap w)) = 3%nat).
Proof.
  split; [reflexivity|]. split; [cbn; lia|].
  apply NewWithCapacity_no_realloc; [reflexivity | cbn; lia].
Defined.

(** The exact number of primitive calls of one valid call on a map of [n]
    entries: [Add] makes none; [Set], [Rename] and [Lookup] make [n]
    compares and [n] copies; [Replace] [n] compares and [2n] copies;
    [Contains] [n] compares and no copy; [Delete] [n] compares and [n - 1]
    copies. *)
Theorem primitive_counts_exact (growcap : nat -> nat -> nat) (mp : Map) (c : cmd) :
  wf_map mp = true -> valid_cmd (keySize mp) (valSize mp) c = true ->
  prim_count CompareOp (trace (snd (exec_cmd growcap c (mkWorld mp [])))) = compares_of c (Len mp)
  /\ prim_count CopyOp (trace (snd (exec_cmd growcap c (mkWorld mp [])))) = copies_of c (Len mp).
Proof.
  intros Hwf Hc. rewrite (exec_trace growcap mp [] c Hwf Hc). cbn [app].
  destruct c; cbn [op_trace compares_of copies_of];
    try (rewrite !prim_count_repeat; cbn; split; lia); [split; reflexivity|].
  destruct (Len mp) as [|n]; cbn [delete_trace]; [split; reflexivity|].
  rewrite !prim_count_app, !prim_count_repeat. cbn. split; lia.
Qed.

Lemma primitive_counts_exact_witness :
  wf_map ex_map = true /\ valid_cmd (keySize ex_map) (valSize ex_map) (CReplace [7] [1] [2]) = true
  /\ (prim_count CompareOp (trace (snd (exec_cmd double_cap (CReplace [7] [1] [2]) (mkWorld ex_map []))))
        = compares_of (CReplace [7] [1] [2]) (Len ex_map)
      /\ prim_count CopyOp (trace (snd (exec_cmd double_cap (CReplace [7] [1] [2]) (mkWorld ex_map []))))
         = copies_of (CReplace [7] [1] [2]) (Len ex_map)).
Proof.
  split; [reflexivity|]. split; [reflexivity|].
  apply primitive_counts_exact; reflexivity.
Defined.
